(** * The image reconciler of the ceph provider

    A shallow embedding of [pkg/controllers/image_controller.go]: the
    reconciler that drives every image through its
    create / snapshot / clone / resize / delete state machine against the
    entity store, the registry, the rados connection and librbd.

    The Go code talks to its collaborators through interfaces and C
    bindings.  Every such call is an element of [Call]; a program is a
    tree of calls ([Prog]) whose shape is the control flow of the Go
    function; [run] executes a program against any handler of the calls
    and returns the result, the final world and the list of calls made
    together with their answers. *)

From Stdlib Require Import ZArith Lia.
From stdpp Require Import base option strings list gmap pretty.

Open Scope Z_scope.
Open Scope string_scope.
Open Scope list_scope.

(** ** Go errors *)

(** An [error] value: a sentinel ([errors.New]), a formatted message
    ([fmt.Errorf] without [%w]), a message wrapping another error
    ([fmt.Errorf("...: %w", err)]) or a join ([errors.Join]).
    A Go [error] that may be [nil] is an [option error]. *)
Inductive error : Type :=
| ErrNew (name : string)
| Errorf (msg : string)
| Wrapf (msg : string) (inner : error)
| Join (e1 e2 : error).

#[global] Instance error_eq_dec : EqDecision error.
Proof. solve_decision. Defined.

Module errors.
(** [errors.Is]: the error itself or one it wraps equals the target. *)
Fixpoint Is_chain (e target : error) : bool :=
  if decide (e = target) then true
  else match e with
       | Wrapf _ inner => Is_chain inner target
       | Join e1 e2 => Is_chain e1 target || Is_chain e2 target
       | _ => false
       end.

Definition Is (err : option error) (target : error) : bool :=
  match err with
  | None => false
  | Some e => Is_chain e target
  end.
End errors.

Module slices.
(** [slices.Contains] on a slice of strings. *)
Definition Contains (s : list string) (v : string) : bool :=
  bool_decide (v ∈ s).
End slices.

Module strings.
(** [strings.TrimPrefix]. *)
Definition TrimPrefix (s p : string) : string :=
  if String.prefix p s
  then String.substring (String.length p) (String.length s - String.length p) s
  else s.
End strings.

(** ** The entities ([pkg/api], used by the reconciler) *)

Module api.
(** Modelled from the spec: the [api] package is not among the sources.
    The fields are the ones the reconciler reads and writes; the
    lifecycle states are Go string constants, Pending and Available for
    an image, Pending and Populated for a snapshot, and the zero value
    of a state is the empty string. *)
Definition ImageState := string.
Definition ImageStatePending : ImageState := "Pending".
Definition ImageStateAvailable : ImageState := "Available".

Definition SnapshotState := string.
Definition SnapshotStatePending : SnapshotState := "Pending".
Definition SnapshotStatePopulated : SnapshotState := "Populated".

Record Metadata : Type := {
  ID : string;
  Labels : gmap string string;
  Finalizers : list string;
  DeletedAt : option Z
}.

Record ImageSpec : Type := {
  Image_ : string;                 (* Spec.Image, the source reference *)
  SnapshotRef : option string;
  Size : Z;                        (* uint64, bytes *)
  Limits : gmap string Z           (* map[string]int64 *)
}.

Record ImageAccess : Type := {
  Monitors : string;
  Handle : string;
  User : string;
  UserKey : string;
  WWN : string
}.

Record ImageStatus : Type := {
  State : ImageState;
  Access : option ImageAccess
}.

Record Image : Type := {
  Meta : Metadata;
  Spec : ImageSpec;
  Status : ImageStatus
}.

Record SnapshotSource : Type := { OnmetalImage : string }.
Record SnapshotStatus : Type := { SnapState : SnapshotState }.

Record Snapshot : Type := {
  SnapMeta : Metadata;
  Source : SnapshotSource;
  SnapStatus : SnapshotStatus
}.
End api.
Import api.

(** Field assignments through the [*api.Image] pointer. *)
Definition set_Finalizers (img : Image) (fs : list string) : Image :=
  {| Meta := {| ID := img.(Meta).(ID); Labels := img.(Meta).(Labels);
                Finalizers := fs; DeletedAt := img.(Meta).(DeletedAt) |};
     Spec := img.(Spec); Status := img.(Status) |}.

Definition set_SnapshotRef (img : Image) (ref : option string) : Image :=
  {| Meta := img.(Meta);
     Spec := {| Image_ := img.(Spec).(Image_); SnapshotRef := ref;
                Size := img.(Spec).(Size); Limits := img.(Spec).(Limits) |};
     Status := img.(Status) |}.

Definition set_Status (img : Image) (st : ImageStatus) : Image :=
  {| Meta := img.(Meta); Spec := img.(Spec); Status := st |}.

Module store.
Definition ErrNotFound : error := ErrNew "not found".

(** Modelled from the spec: the store package is not among the sources.
    Its creator reports a duplicate with an "already exists" outcome. *)
Definition ErrAlreadyExists : error := ErrNew "already exists".

(** Modelled from the spec: [store.IgnoreErrNotFound] is not among the
    sources; "entity not found" on an update is treated as success, any
    other error is kept. *)
Definition IgnoreErrNotFound (err : option error) : option error :=
  if errors.Is err ErrNotFound then None else err.
End store.

Module librbd.
Definition ErrNotFound : error := ErrNew "rbd: not found".
Definition NoSnapshot : string := "".
Definition RbdImageOptionDataPool : string := "data_pool".
End librbd.

Module event.
(** Modelled from the spec: a change notification carries its type,
    Created, Updated or Deleted, and the object. *)
Inductive Type_ : Type := TypeCreated | TypeUpdated | TypeDeleted.

#[global] Instance Type_eq_dec : EqDecision Type_.
Proof. solve_decision. Defined.

Record Event (E : Type) : Type := { Type' : Type_; Object : E }.
Arguments Type' {E} _.
Arguments Object {E} _.
End event.

(** ** Constants of the reconciler *)

Definition LimitMetadataPrefix : string := "conf_".
Definition imageDigestLabel : string := "image-digest".
Definition ImageFinalizer : string := "image".

Record ImageReconciler : Type := {
  monitors : string;
  client : string;
  pool : string
}.

(** What the reconciler uses and the sources do not hold: the rounding of
    sizes ([round.OffBytes]), [utils.DeleteSliceElement], the naming of the
    backend volumes ([ImageIDToRBDID], [SnapshotIDToRBDID],
    [ImageSnapshotVersion]), and three pure library functions: parsing a
    reference into its locator, and encoding and decoding the monitor
    command.  Everything below is parametric in them. *)
Class Externals : Type := {
  OffBytes : Z → Z;
  DeleteSliceElement : list string → string → list string;
  ImageIDToRBDID : string → string;
  SnapshotIDToRBDID : string → string;
  ImageSnapshotVersion : string;
  reference_Parse : string → string * option error;
  json_Marshal : gmap string string → string * option error;
  json_Unmarshal : string → string * option error
}.

(** ** Calls to the collaborators *)

(** An open I/O context is known by the pool it was opened on, an open rbd
    image by its context and name, the image options by the strings set. *)
Definition IOContext := string.
Definition ImageOptions := list (string * string).
Record RbdImage : Type := { rbd_ioctx : IOContext; rbd_name : string }.

(** A call that returns a pointer and an error answers with an
    [option] for each: Go returns the nil pointer next to the error. *)
Inductive Call : Type → Type :=
(* store.Store[*api.Image], store.Store[*api.Snapshot] *)
| ImagesGet (id : string) : Call (option Image * option error)
| ImagesList : Call (list Image * option error)
| ImagesUpdate (img : Image) : Call (option Image * option error)
| SnapshotsGet (id : string) : Call (option Snapshot * option error)
| SnapshotsCreate (snap : Snapshot) : Call (option Snapshot * option error)
(* image.Source: the digest of the resolved image's descriptor *)
| RegistryResolve (ref : string) : Call (option string * option error)
(* rados.Conn *)
| ConnOpenIOContext (pool : string) : Call (option error)
| ConnMonCommand (cmd : string) : Call (string * option error)
| IOContextDestroy (ioCtx : IOContext) : Call unit
(* librbd *)
| NewRbdImageOptions : Call unit
| OptionsSetString (key value : string) : Call (option error)
| OptionsDestroy : Call unit
| RemoveImage (ioCtx : IOContext) (name : string) : Call (option error)
| CreateImage (ioCtx : IOContext) (name : string) (size : Z)
    (opts : ImageOptions) : Call (option error)
| CloneImage (ioCtx : IOContext) (parent snapshot : string)
    (cIoCtx : IOContext) (child : string) (opts : ImageOptions) : Call (option error)
| OpenImage (ioCtx : IOContext) (name snapshot : string) : Call (option error)
| ImageResize (img : RbdImage) (size : Z) : Call (option error)
| ImageSetMetadata (img : RbdImage) (key value : string) : Call (option error)
| ImageClose (img : RbdImage) : Call (option error)
(* idgen.IDGen *)
| WwnGenerate : Call string
(* workqueue.RateLimitingInterface *)
| QueueGet : Call (string * bool)
| QueueDone (item : string) : Call unit
| QueueAdd (item : string) : Call unit
| QueueAddRateLimited (item : string) : Call unit
| QueueForget (item : string) : Call unit.

(** A call together with its answer. *)
Inductive Event : Type :=
| Ev {R : Type} (c : Call R) (r : R).

(** ** Programs *)

(** A Go function body: it returns, panics, or makes a call and goes on
    with the answer. *)
Inductive Prog (A : Type) : Type :=
| Ret (a : A)
| Panic (msg : string)
| Do {R : Type} (c : Call R) (k : R → Prog A).
Arguments Ret {A} a.
Arguments Panic {A} msg.
Arguments Do {A R} c k.

Fixpoint bind {A B : Type} (p : Prog A) (f : A → Prog B) : Prog B :=
  match p with
  | Ret a => f a
  | Panic m => Panic m
  | Do c k => Do c (λ r, bind (k r) f)
  end.

#[global] Instance Prog_ret : MRet Prog := @Ret.
#[global] Instance Prog_bind : MBind Prog := λ A B f p, bind p f.

Definition call {R : Type} (c : Call R) : Prog R := Do c Ret.

(** [defer d; body]: the deferred call runs when the body returns and
    also when it panics. *)
Fixpoint defer {A : Type} (d : Prog unit) (body : Prog A) : Prog A :=
  match body with
  | Ret a => _ ← d; Ret a
  | Panic m => _ ← d; Panic m
  | Do c k => Do c (λ r, defer d (k r))
  end.

Inductive Outcome (A : Type) : Type :=
| Returned (a : A)
| Panicked (msg : string).
Arguments Returned {A} a.
Arguments Panicked {A} msg.

Definition Handler (W : Type) : Type := ∀ R : Type, Call R → W → R * W.

(** Running a program in a world: the outcome, the world left behind and
    the calls made, oldest first. *)
Fixpoint run {W A : Type} (handle : Handler W) (p : Prog A) (w : W)
  : Outcome A * W * list Event :=
  match p with
  | Ret a => (Returned a, w, [])
  | Panic m => (Panicked m, w, [])
  | Do c k =>
      let '(r, w1) := handle _ c w in
      let '(o, w2, t) := run handle (k r) w1 in
      (o, w2, Ev c r :: t)
  end.

Definition outcome {W A : Type} (x : Outcome A * W * list Event) : Outcome A := x.1.1.
Definition world {W A : Type} (x : Outcome A * W * list Event) : W := x.1.2.
Definition trace {W A : Type} (x : Outcome A * W * list Event) : list Event := x.2.

(** ** The reconciler *)

Section Reconciler.
Context `{Externals}.
Variable r : ImageReconciler.

(** [deleteImage].  The image is mutated through the pointer, so the
    image as the function leaves it is returned next to the error. *)
Definition deleteImage (ioCtx : IOContext) (image : Image)
  : Prog (Image * option error) :=
  if negb (slices.Contains image.(Meta).(Finalizers) ImageFinalizer)
  then Ret (image, None)
  else
    err ← call (RemoveImage ioCtx (ImageIDToRBDID image.(Meta).(ID)));
    let removed : Prog (Image * option error) :=
      let image :=
        set_Finalizers image
          (DeleteSliceElement image.(Meta).(Finalizers) ImageFinalizer) in
      '(_, err) ← call (ImagesUpdate image);
      match store.IgnoreErrNotFound err with
      | Some e => Ret (image, Some (Wrapf "failed to update image metadata" e))
      | None => Ret (image, None)
      end in
    match err with
    | Some e =>
        if negb (errors.Is err librbd.ErrNotFound)
        then Ret (image, Some (Wrapf "failed to remove rbd image" e))
        else removed
    | None => removed
    end.

(** [fetchAuth]: the user, the key and the error. *)
Definition fetchAuth : Prog (string * string * option error) :=
  let '(cmd1, err) :=
    json_Marshal
      (<["prefix" := "auth get-key"]>
         (<["entity" := r.(client)]> (<["format" := "json"]> ∅))) in
  match err with
  | Some e => Ret ("", "", Some (Wrapf "unable to marshal command" e))
  | None =>
      '(data, err) ← call (ConnMonCommand cmd1);
      match err with
      | Some e => Ret ("", "", Some (Wrapf "failed to execute mon command" e))
      | None =>
          let '(response_Key, err) := json_Unmarshal data in
          match err with
          | Some e => Ret ("", "", Some (Wrapf "unable to unmarshal response" e))
          | None =>
              Ret (strings.TrimPrefix r.(client) "client.", response_Key, None)
          end
      end
  end.

(** The tail of [reconcileSnapshot]: record the snapshot on the image
    and persist. *)
Definition recordSnapshotRef (img : Image) (snap : option Snapshot)
  : Prog (Image * option error) :=
  match snap with
  | None => Panic "nil pointer dereference: snap.ID"
  | Some snap =>
      let img := set_SnapshotRef img (Some snap.(SnapMeta).(ID)) in
      '(_, err) ← call (ImagesUpdate img);
      match err with
      | Some e => Ret (img, Some (Wrapf "failed to update image snapshot ref" e))
      | None => Ret (img, None)
      end
  end.

(** [reconcileSnapshot]; the image is mutated through the pointer and
    returned next to the error. *)
Definition reconcileSnapshot (img : Image) : Prog (Image * option error) :=
  if negb (negb (String.eqb img.(Spec).(Image_) "")
           && bool_decide (img.(Spec).(SnapshotRef) = None))
  then Ret (img, None)
  else
    let '(spec_Locator, err) := reference_Parse img.(Spec).(Image_) in
    match err with
    | Some e => Ret (img, Some (Wrapf "failed to parse image reference" e))
    | None =>
        '(resolvedImg, err) ← call (RegistryResolve img.(Spec).(Image_));
        match err with
        | Some e =>
            Ret (img, Some (Wrapf "failed to resolve image ref in registry" e))
        | None =>
            match resolvedImg with
            | None => Panic "nil pointer dereference: resolvedImg.Descriptor()"
            | Some snapshotDigest =>
                let resolvedImageName :=
                  spec_Locator +:+ "@" +:+ snapshotDigest in
                '(snap, err) ← call (SnapshotsGet snapshotDigest);
                match err with
                | Some e =>
                    if errors.Is err store.ErrNotFound
                    then
                      '(snap, err) ← call (SnapshotsCreate
                        {| SnapMeta :=
                             {| ID := snapshotDigest;
                                Labels := {[ imageDigestLabel := snapshotDigest ]};
                                Finalizers := [];
                                DeletedAt := None |};
                           Source := {| OnmetalImage := resolvedImageName |};
                           SnapStatus := {| SnapState := "" |} |});
                      match err with
                      | Some e =>
                          Ret (img, Some (Wrapf "failed to create snapshot" e))
                      | None => recordSnapshotRef img snap
                      end
                    else Ret (img, Some (Wrapf "failed to get snapshot" e))
                | None => recordSnapshotRef img snap
                end
            end
        end
    end.

(** [createEmptyImage]. *)
Definition createEmptyImage (ioCtx : IOContext) (image : Image)
    (options : ImageOptions) : Prog (option error) :=
  err ← call (CreateImage ioCtx (ImageIDToRBDID image.(Meta).(ID))
                (OffBytes image.(Spec).(Size)) options);
  match err with
  | Some e => Ret (Some (Wrapf "failed to create rbd image" e))
  | None => Ret None
  end.

(** [createImageFromSnapshot]: whether the clone was made, and the
    error.  The log call in the not-found branch reads [snapshot.ID]
    before it returns. *)
Definition createImageFromSnapshot (ioCtx : IOContext) (image : Image)
    (snapshotRef : string) (options : ImageOptions)
  : Prog (bool * option error) :=
  '(snapshot, err) ← call (SnapshotsGet snapshotRef);
  match err with
  | Some e =>
      if negb (errors.Is err store.ErrNotFound)
      then Ret (false, Some (Wrapf "failed to get snapshot" e))
      else
        match snapshot with
        | None => Panic "nil pointer dereference: snapshot.ID"
        | Some _ => Ret (false, None)
        end
  | None =>
      match snapshot with
      | None => Panic "nil pointer dereference: snapshot.Status"
      | Some snapshot =>
          if negb (String.eqb snapshot.(SnapStatus).(SnapState)
                     SnapshotStatePopulated)
          then Ret (false, None)
          else
            err ← call (ConnOpenIOContext r.(pool));
            match err with
            | Some e => Ret (false, Some (Wrapf "unable to get io context" e))
            | None =>
                let ioCtx2 : IOContext := r.(pool) in
                defer (call (IOContextDestroy ioCtx2))
                  (err ← call (CloneImage ioCtx2
                                 (SnapshotIDToRBDID snapshot.(SnapMeta).(ID))
                                 ImageSnapshotVersion ioCtx
                                 (ImageIDToRBDID image.(Meta).(ID)) options);
                   match err with
                   | Some e => Ret (false, Some (Wrapf "failed to clone rbd image" e))
                   | None =>
                       err ← call (OpenImage ioCtx
                                     (ImageIDToRBDID image.(Meta).(ID))
                                     librbd.NoSnapshot);
                       match err with
                       | Some e =>
                           Ret (false, Some (Wrapf "failed to open rbd image" e))
                       | None =>
                           let img := {| rbd_ioctx := ioCtx;
                                         rbd_name := ImageIDToRBDID image.(Meta).(ID) |} in
                           err ← call (ImageResize img (OffBytes image.(Spec).(Size)));
                           match err with
                           | Some e =>
                               closeErr ← call (ImageClose img);
                               match closeErr with
                               | Some ce =>
                                   Ret (false,
                                        Some (Join e (Wrapf "unable to close image" ce)))
                               | None =>
                                   Ret (false,
                                        Some (Wrapf "failed to resize rbd image" e))
                               end
                           | None =>
                               err ← call (ImageClose img);
                               match err with
                               | Some e =>
                                   Ret (false,
                                        Some (Wrapf "failed to close rbd image" e))
                               | None => Ret (true, None)
                               end
                           end
                       end
                   end)
            end
      end
  end.

(** The loop of [setImageLimits] over the entries of the limits map:
    [Some] is the error it returns early with. *)
Fixpoint setImageLimits_range (img : RbdImage) (limits : list (string * Z))
  : Prog (option error) :=
  match limits with
  | [] => Ret None
  | (limit, value) :: limits =>
      err ← call (ImageSetMetadata img (LimitMetadataPrefix +:+ limit)
                    (pretty value));
      match err with
      | Some e =>
          closeErr ← call (ImageClose img);
          match closeErr with
          | Some ce => Ret (Some (Join e (Wrapf "unable to close image" ce)))
          | None =>
              Ret (Some (Wrapf ("failed to set limit (" +:+ limit +:+ ")") e))
          end
      | None => setImageLimits_range img limits
      end
  end.

(** [setImageLimits]. *)
Definition setImageLimits (ioCtx : IOContext) (image : Image)
  : Prog (option error) :=
  err ← call (OpenImage ioCtx (ImageIDToRBDID image.(Meta).(ID))
                librbd.NoSnapshot);
  match err with
  | Some e => Ret (Some (Wrapf "failed to open rbd image" e))
  | None =>
      let img := {| rbd_ioctx := ioCtx;
                    rbd_name := ImageIDToRBDID image.(Meta).(ID) |} in
      err ← setImageLimits_range img (map_to_list image.(Spec).(Limits));
      match err with
      | Some e => Ret (Some e)
      | None =>
          err ← call (ImageClose img);
          match err with
          | Some e => Ret (Some (Wrapf "failed to close rbd image" e))
          | None => Ret None
          end
      end
  end.

(** [fmt.Errorf("...: %w", err)] on an error that may be nil is only
    written where the error is known not to be. *)
Definition wrap (msg : string) (err : option error) : option error :=
  Wrapf msg <$> err.

(** The part of [reconcileImage] after the options are created. *)
Definition provision (ioCtx : IOContext) (img : Image) : Prog (option error) :=
  err ← call (OptionsSetString librbd.RbdImageOptionDataPool r.(pool));
  match err with
  | Some e => Ret (Some (Wrapf "failed to set data pool" e))
  | None =>
      let options : ImageOptions :=
        [(librbd.RbdImageOptionDataPool, r.(pool))] in
      '(ok, err) ←
        match img.(Spec).(SnapshotRef) with
        | Some snapshotRef =>
            '(ok, err) ← createImageFromSnapshot ioCtx img snapshotRef options;
            Ret (ok, wrap "failed to create image from snapshot" err)
        | None =>
            err ← createEmptyImage ioCtx img options;
            Ret (true, wrap "failed to create empty image" err)
        end;
      match err with
      | Some e => Ret (Some e)
      | None =>
          if negb ok then Ret None
          else
            err ← (if bool_decide (0 < size img.(Spec).(Limits))%nat
                   then setImageLimits ioCtx img
                   else Ret None);
            match err with
            | Some e => Ret (Some (Wrapf "failed to set limits" e))
            | None =>
                '(user, key, err) ← fetchAuth;
                match err with
                | Some e => Ret (Some (Wrapf "failed to fetch credentials" e))
                | None =>
                    wwn ← call WwnGenerate;
                    let img :=
                      set_Status img
                        {| State := ImageStateAvailable;
                           Access := Some
                             {| Monitors := r.(monitors);
                                Handle := r.(pool) +:+ "/" +:+ img.(Meta).(ID);
                                User := user;
                                UserKey := key;
                                WWN := wwn |} |} in
                    '(_, err) ← call (ImagesUpdate img);
                    match err with
                    | Some e =>
                        Ret (Some (Wrapf "failed to update image metadate" e))
                    | None => Ret None
                    end
                end
            end
      end
  end.

(** The finalizer step of [reconcileImage]: the image with the finalizer
    and the error of the update, if one was made. *)
Definition ensureFinalizer (img : Image) : Prog (Image * option error) :=
  if negb (slices.Contains img.(Meta).(Finalizers) ImageFinalizer)
  then
    let img := set_Finalizers img (img.(Meta).(Finalizers) ++ [ImageFinalizer]) in
    '(_, err) ← call (ImagesUpdate img);
    Ret (img, err)
  else Ret (img, None).

(** [reconcileImage]. *)
Definition reconcileImage (id : string) : Prog (option error) :=
  err ← call (ConnOpenIOContext r.(pool));
  match err with
  | Some e => Ret (Some (Wrapf "unable to get io context" e))
  | None =>
      let ioCtx : IOContext := r.(pool) in
      defer (call (IOContextDestroy ioCtx))
        ('(img, err) ← call (ImagesGet id);
         match err with
         | Some e =>
             if negb (errors.Is err store.ErrNotFound)
             then Ret (Some (Wrapf "failed to fetch image from store" e))
             else Ret None
         | None =>
             match img with
             | None => Panic "nil pointer dereference: img.DeletedAt"
             | Some img =>
                 if bool_decide (img.(Meta).(DeletedAt) ≠ None)
                 then
                   '(_, err) ← deleteImage ioCtx img;
                   match err with
                   | Some e => Ret (Some (Wrapf "failed to delete image" e))
                   | None => Ret None
                   end
                 else if String.eqb img.(Status).(State) ImageStateAvailable
                 then Ret None
                 else
                   '(img, err) ← ensureFinalizer img;
                   match err with
                   | Some e => Ret (Some (Wrapf "failed to set finalizers" e))
                   | None =>
                       '(img, err) ← reconcileSnapshot img;
                       match err with
                       | Some e =>
                           Ret (Some (Wrapf "failed to reconcile snapshot" e))
                       | None =>
                           _ ← call NewRbdImageOptions;
                           defer (call OptionsDestroy) (provision ioCtx img)
                       end
                   end
             end
         end)
  end.

(** [processNextWorkItem].  The items of the queue are the image IDs the
    handlers add, so the item is a string. *)
Definition processNextWorkItem : Prog bool :=
  '(item, shutdown) ← call QueueGet;
  if shutdown : bool then Ret false
  else
    defer (call (QueueDone item))
      (err ← reconcileImage item;
       match err with
       | Some _ => _ ← call (QueueAddRateLimited item); Ret true
       | None => _ ← call (QueueForget item); Ret true
       end).

(** One worker of [Start]: [for r.processNextWorkItem(ctx, log) {}],
    cut off after [n] items.  The pool of goroutines and the shutdown of
    the queue on cancellation are not part of the model. *)
Fixpoint worker (n : nat) : Prog unit :=
  match n with
  | O => Ret tt
  | S n =>
      more ← processNextWorkItem;
      if more : bool then worker n else Ret tt
  end.

(** The image event handler registered by [Start]. *)
Definition imageEventHandler (evt : event.Event Image) : Prog unit :=
  if decide (evt.(event.Type') = event.TypeUpdated) then Ret tt
  else call (QueueAdd evt.(event.Object).(Meta).(ID)).

(** The loop of the snapshot event handler over the listed images. *)
Fixpoint enqueueDependents (snapshotID : string) (imageList : list Image)
  : Prog unit :=
  match imageList with
  | [] => Ret tt
  | img :: imageList =>
      _ ← (match img.(Spec).(SnapshotRef) with
           | Some snapshotRef =>
               if String.eqb snapshotRef snapshotID
               then call (QueueAdd img.(Meta).(ID))
               else Ret tt
           | None => Ret tt
           end);
      enqueueDependents snapshotID imageList
  end.

(** The snapshot event handler registered by [Start]. *)
Definition snapshotEventHandler (evt : event.Event Snapshot) : Prog unit :=
  if bool_decide (evt.(event.Type') ≠ event.TypeUpdated)
     || negb (String.eqb evt.(event.Object).(SnapStatus).(SnapState)
                SnapshotStatePopulated)
  then Ret tt
  else
    '(imageList, err) ← call ImagesList;
    match err with
    | Some _ => Ret tt
    | None => enqueueDependents evt.(event.Object).(SnapMeta).(ID) imageList
    end.
End Reconciler.

(** ** Construction of the reconciler *)

Module ImageReconcilerOptions.
Record t : Type := { Monitors : string; Client : string; Pool : string }.
End ImageReconcilerOptions.

(** [NewImageReconciler].  A dependency is a pointer or an interface
    value that may be nil: an [option].  The reconciler of the model keeps
    the three strings; the queue, the identifier generator and the
    dependencies themselves are the collaborators of [Call]. *)
Definition NewImageReconciler {Conn Registry Images Snapshots ImageEvents SnapshotEvents : Type}
    (conn : option Conn) (registry : option Registry)
    (images : option Images) (snapshots : option Snapshots)
    (imageEvents : option ImageEvents) (snapshotEvents : option SnapshotEvents)
    (opts : ImageReconcilerOptions.t)
  : option ImageReconciler * option error :=
  match conn with
  | None => (None, Some (Errorf "must specify conn"))
  | Some _ =>
  match registry with
  | None => (None, Some (Errorf "must specify registry"))
  | Some _ =>
  match images with
  | None => (None, Some (Errorf "must specify image store"))
  | Some _ =>
  match snapshots with
  | None => (None, Some (Errorf "must specify snapshots store"))
  | Some _ =>
  match imageEvents with
  | None => (None, Some (Errorf "must specify image events"))
  | Some _ =>
  match snapshotEvents with
  | None => (None, Some (Errorf "must specify snapshot events"))
  | Some _ =>
      if String.eqb opts.(ImageReconcilerOptions.Pool) ""
      then (None, Some (Errorf "must specify pool"))
      else if String.eqb opts.(ImageReconcilerOptions.Monitors) ""
      then (None, Some (Errorf "must specify monitors"))
      else if String.eqb opts.(ImageReconcilerOptions.Client) ""
      then (None, Some (Errorf "must specify ceph client"))
      else
        (Some {| monitors := opts.(ImageReconcilerOptions.Monitors);
                 client := opts.(ImageReconcilerOptions.Client);
                 pool := opts.(ImageReconcilerOptions.Pool) |},
         None)
  end end end end end end.

(** ** An in-memory world

    The collaborators as the spec describes them at their interface, with
    maps for the stores and for the backend.  It serves to run the
    reconciler on concrete scenarios; the properties further down are
    proved for every handler, not for this one only. *)

Record World : Type := {
  w_images : gmap string Image;
  w_snapshots : gmap string Snapshot;
  w_registry : gmap string string;      (* reference ↦ digest *)
  w_volumes : gmap string Z;            (* backend volume ↦ size in bytes *)
  w_metadata : list (string * string * string);
  w_queue : list string;
  w_processing : list string;
  w_failures : gmap string nat;         (* consecutive failures per key *)
  w_wwn : nat;
  w_conn_down : bool;                   (* the rados connection is down *)
  w_list_fails : bool;                  (* listing the images fails *)
  w_rival : option Snapshot             (* a concurrent creator, see below *)
}.

Definition with_images (w : World) (m : gmap string Image) : World :=
  {| w_images := m; w_snapshots := w.(w_snapshots); w_registry := w.(w_registry);
     w_volumes := w.(w_volumes); w_metadata := w.(w_metadata);
     w_queue := w.(w_queue); w_processing := w.(w_processing);
     w_failures := w.(w_failures); w_wwn := w.(w_wwn);
     w_conn_down := w.(w_conn_down); w_list_fails := w.(w_list_fails);
     w_rival := w.(w_rival) |}.

Definition with_snapshots (w : World) (m : gmap string Snapshot)
    (rival : option Snapshot) : World :=
  {| w_images := w.(w_images); w_snapshots := m; w_registry := w.(w_registry);
     w_volumes := w.(w_volumes); w_metadata := w.(w_metadata);
     w_queue := w.(w_queue); w_processing := w.(w_processing);
     w_failures := w.(w_failures); w_wwn := w.(w_wwn);
     w_conn_down := w.(w_conn_down); w_list_fails := w.(w_list_fails);
     w_rival := rival |}.

Definition with_volumes (w : World) (m : gmap string Z)
    (md : list (string * string * string)) : World :=
  {| w_images := w.(w_images); w_snapshots := w.(w_snapshots);
     w_registry := w.(w_registry);
     w_volumes := m; w_metadata := md;
     w_queue := w.(w_queue); w_processing := w.(w_processing);
     w_failures := w.(w_failures); w_wwn := w.(w_wwn);
     w_conn_down := w.(w_conn_down); w_list_fails := w.(w_list_fails);
     w_rival := w.(w_rival) |}.

Definition with_queue (w : World) (q p : list string) (f : gmap string nat)
  : World :=
  {| w_images := w.(w_images); w_snapshots := w.(w_snapshots);
     w_registry := w.(w_registry);
     w_volumes := w.(w_volumes); w_metadata := w.(w_metadata);
     w_queue := q; w_processing := p; w_failures := f; w_wwn := w.(w_wwn);
     w_conn_down := w.(w_conn_down); w_list_fails := w.(w_list_fails);
     w_rival := w.(w_rival) |}.

Definition with_wwn (w : World) (n : nat) : World :=
  {| w_images := w.(w_images); w_snapshots := w.(w_snapshots);
     w_registry := w.(w_registry);
     w_volumes := w.(w_volumes); w_metadata := w.(w_metadata);
     w_queue := w.(w_queue); w_processing := w.(w_processing);
     w_failures := w.(w_failures); w_wwn := n;
     w_conn_down := w.(w_conn_down); w_list_fails := w.(w_list_fails);
     w_rival := w.(w_rival) |}.

Definition enqueue (q : list string) (item : string) : list string :=
  if bool_decide (item ∈ q) then q else q ++ [item].

Definition dequeue (p : list string) (item : string) : list string :=
  filter (λ x, x ≠ item) p.

(** Modelled from the spec: the entity store, the content resolver, the
    backend driver and the work queue at their interfaces.  [Get] and
    [Update] answer "not found" for an absent entity, with the nil pointer
    as Go returns it; [Create] answers "already exists" for a present one;
    an update that leaves a deleted entity without finalizers purges it.
    A clone inherits the size of its parent and a resize sets the size.
    [AddRateLimited] counts a failure for the key, [Forget] resets it.
    The rival is a concurrent reconciliation that creates its snapshot
    right after a lookup of this one has missed it. *)
Definition handle : Handler World :=
  λ R c,
    match c in Call R return World → R * World with
    | ImagesGet id => λ w,
        match w.(w_images) !! id with
        | Some img => ((Some img, None), w)
        | None => ((None, Some store.ErrNotFound), w)
        end
    | ImagesList => λ w,
        if w.(w_list_fails) then (([], Some (Errorf "store unavailable")), w)
        else ((snd <$> map_to_list w.(w_images), None), w)
    | ImagesUpdate img => λ w,
        match w.(w_images) !! img.(Meta).(ID) with
        | None => ((None, Some store.ErrNotFound), w)
        | Some _ =>
            if bool_decide (img.(Meta).(DeletedAt) ≠ None
                            ∧ img.(Meta).(Finalizers) = [])
            then ((Some img, None),
                  with_images w (delete img.(Meta).(ID) w.(w_images)))
            else ((Some img, None),
                  with_images w (<[img.(Meta).(ID) := img]> w.(w_images)))
        end
    | SnapshotsGet id => λ w,
        match w.(w_snapshots) !! id with
        | Some s => ((Some s, None), w)
        | None =>
            ((None, Some store.ErrNotFound),
             match w.(w_rival) with
             | Some s =>
                 with_snapshots w (<[s.(SnapMeta).(ID) := s]> w.(w_snapshots)) None
             | None => w
             end)
        end
    | SnapshotsCreate s => λ w,
        match w.(w_snapshots) !! s.(SnapMeta).(ID) with
        | Some _ => ((None, Some store.ErrAlreadyExists), w)
        | None =>
            ((Some s, None),
             with_snapshots w (<[s.(SnapMeta).(ID) := s]> w.(w_snapshots))
               w.(w_rival))
        end
    | RegistryResolve ref => λ w,
        match w.(w_registry) !! ref with
        | Some d => ((Some d, None), w)
        | None => ((None, Some (Errorf "unknown reference")), w)
        end
    | ConnOpenIOContext _ => λ w,
        if w.(w_conn_down) then (Some (Errorf "rados: connection down"), w)
        else (None, w)
    | ConnMonCommand _ => λ w, (("secret", None), w)
    | IOContextDestroy _ => λ w, (tt, w)
    | NewRbdImageOptions => λ w, (tt, w)
    | OptionsSetString _ _ => λ w, (None, w)
    | OptionsDestroy => λ w, (tt, w)
    | RemoveImage _ name => λ w,
        match w.(w_volumes) !! name with
        | None => (Some librbd.ErrNotFound, w)
        | Some _ => (None, with_volumes w (delete name w.(w_volumes)) w.(w_metadata))
        end
    | CreateImage _ name size _ => λ w,
        match w.(w_volumes) !! name with
        | Some _ => (Some (Errorf "rbd: image exists"), w)
        | None => (None, with_volumes w (<[name := size]> w.(w_volumes)) w.(w_metadata))
        end
    | CloneImage _ parent _ _ child _ => λ w,
        match w.(w_volumes) !! parent with
        | None => (Some librbd.ErrNotFound, w)
        | Some size =>
            match w.(w_volumes) !! child with
            | Some _ => (Some (Errorf "rbd: image exists"), w)
            | None =>
                (None, with_volumes w (<[child := size]> w.(w_volumes)) w.(w_metadata))
            end
        end
    | OpenImage _ name _ => λ w,
        match w.(w_volumes) !! name with
        | None => (Some librbd.ErrNotFound, w)
        | Some _ => (None, w)
        end
    | ImageResize img size => λ w,
        match w.(w_volumes) !! img.(rbd_name) with
        | None => (Some librbd.ErrNotFound, w)
        | Some _ =>
            (None, with_volumes w (<[img.(rbd_name) := size]> w.(w_volumes))
                     w.(w_metadata))
        end
    | ImageSetMetadata img key value => λ w,
        (None, with_volumes w w.(w_volumes)
                 (w.(w_metadata) ++ [(img.(rbd_name), key, value)]))
    | ImageClose _ => λ w, (None, w)
    | WwnGenerate => λ w, (pretty w.(w_wwn), with_wwn w (S w.(w_wwn)))
    | QueueGet => λ w,
        match w.(w_queue) with
        | [] => (("", true), w)
        | item :: q =>
            ((item, false),
             with_queue w q (enqueue w.(w_processing) item) w.(w_failures))
        end
    | QueueDone item => λ w,
        (tt, with_queue w w.(w_queue) (dequeue w.(w_processing) item)
               w.(w_failures))
    | QueueAdd item => λ w,
        (tt, with_queue w (enqueue w.(w_queue) item) w.(w_processing)
               w.(w_failures))
    | QueueAddRateLimited item => λ w,
        (tt, with_queue w (enqueue w.(w_queue) item) w.(w_processing)
               (<[item := S (default O (w.(w_failures) !! item))]> w.(w_failures)))
    | QueueForget item => λ w,
        (tt, with_queue w w.(w_queue) w.(w_processing)
               (delete item w.(w_failures)))
    end.

(** Modelled from the spec: sizes are rounded up to the allocation
    granularity of the backend, here one mebibyte. *)
Definition granularity : Z := 1048576.
Definition round_up (n : Z) : Z := (n + granularity - 1) / granularity * granularity.

(** Modelled from the spec: removing the finalizer from the entity. *)
Definition remove_all (s : list string) (elem : string) : list string :=
  filter (λ x, x ≠ elem) s.

#[local] Instance concrete : Externals := {|
  OffBytes := round_up;
  DeleteSliceElement := remove_all;
  ImageIDToRBDID := λ id, "img_" +:+ id;
  SnapshotIDToRBDID := λ id, "snap_" +:+ id;
  ImageSnapshotVersion := "v1";
  reference_Parse := λ ref, (ref, None);
  json_Marshal := λ m, (default "" (m !! "entity"), None);
  json_Unmarshal := λ data, (data, None)
|}.

Definition rec0 : ImageReconciler :=
  {| monitors := "10.0.0.1:6789"; client := "client.volumes"; pool := "ceph" |}.

Definition empty_world : World :=
  {| w_images := ∅; w_snapshots := ∅; w_registry := ∅; w_volumes := ∅;
     w_metadata := []; w_queue := []; w_processing := []; w_failures := ∅;
     w_wwn := 0; w_conn_down := false; w_list_fails := false; w_rival := None |}.

Definition GiB : Z := 1073741824.

Definition mkImage (id : string) (fs : list string) (deleted : option Z)
    (src : string) (ref : option string) (size : Z) (st : ImageState) : Image :=
  {| Meta := {| ID := id; Labels := ∅; Finalizers := fs; DeletedAt := deleted |};
     Spec := {| Image_ := src; SnapshotRef := ref; Size := size; Limits := ∅ |};
     Status := {| State := st; Access := None |} |}.

Definition mkSnapshot (id : string) (st : SnapshotState) : Snapshot :=
  {| SnapMeta := {| ID := id; Labels := {[ imageDigestLabel := id ]};
                    Finalizers := []; DeletedAt := None |};
     Source := {| OnmetalImage := "repo/base@" +:+ id |};
     SnapStatus := {| SnapState := st |} |}.

(** ** Scenarios in the in-memory world *)

Definition digest0 : string := "sha256:abc".

(** A: a fresh image of 10 GiB without a source. *)
Definition imgA : Image := mkImage "a" [] None EmptyString None (10 * GiB) EmptyString.

Definition worldA : World :=
  with_queue (with_images empty_world {[ "a" := imgA ]}) ["a"] [] ∅.

(** B: a fresh image with a source that resolves to [digest0]. *)
Definition imgB : Image :=
  mkImage "b" [ImageFinalizer] None "repo/base:tag" None GiB EmptyString.

Definition worldB : World :=
  {| w_images := {[ "b" := imgB ]}; w_snapshots := ∅;
     w_registry := {[ "repo/base:tag" := digest0 ]}; w_volumes := ∅;
     w_metadata := []; w_queue := ["b"]; w_processing := []; w_failures := ∅;
     w_wwn := 0; w_conn_down := false; w_list_fails := false; w_rival := None |}.

(** The race: as B, and a concurrent reconciliation creates the snapshot
    right after the lookup of this one has missed it. *)
Definition worldRace : World :=
  with_snapshots worldB ∅ (Some (mkSnapshot digest0 SnapshotStatePending)).

(** The snapshot is there: as B, after the other reconciliation won. *)
Definition worldWon : World :=
  with_snapshots worldB {[ digest0 := mkSnapshot digest0 SnapshotStatePending ]} None.

(** C: an image of 1 GiB that refers to a snapshot. *)
Definition imgC : Image :=
  mkImage "c" [ImageFinalizer] None "repo/base:tag" (Some digest0) GiB EmptyString.

(** The snapshot of C is missing from the store. *)
Definition worldMissing : World :=
  with_queue (with_images empty_world {[ "c" := imgC ]}) ["c"] [] ∅.

(** The snapshot of C is Populated, its backend volume has 10 GiB. *)
Definition worldClone : World :=
  with_volumes
    (with_snapshots worldMissing
       {[ digest0 := mkSnapshot digest0 SnapshotStatePopulated ]} None)
    {[ "snap_sha256:abc" := 10 * GiB ]} [].

(** As before, and listing the images fails. *)
Definition worldListFails : World :=
  {| w_images := {[ "c" := imgC ]}; w_snapshots := w_snapshots worldClone;
     w_registry := ∅; w_volumes := w_volumes worldClone;
     w_metadata := []; w_queue := []; w_processing := []; w_failures := ∅;
     w_wwn := 0; w_conn_down := false; w_list_fails := true; w_rival := None |}.

Definition populated0 : event.Event Snapshot :=
  {| event.Type' := event.TypeUpdated;
     event.Object := mkSnapshot digest0 SnapshotStatePopulated |}.

(** D: an image marked deleted, finalizer present, no backend volume. *)
Definition imgD : Image :=
  mkImage "d" [ImageFinalizer] (Some 1) EmptyString None GiB EmptyString.

Definition worldD : World := with_images empty_world {[ "d" := imgD ]}.

(** V: an image that is Available; and the same with the connection down. *)
Definition imgV : Image :=
  mkImage "v" [ImageFinalizer] None EmptyString None GiB ImageStateAvailable.

Definition worldV : World := with_images empty_world {[ "v" := imgV ]}.

Definition worldVDown : World :=
  {| w_images := {[ "v" := imgV ]}; w_snapshots := ∅; w_registry := ∅;
     w_volumes := {[ "img_v" := GiB ]};
     w_metadata := []; w_queue := []; w_processing := []; w_failures := ∅;
     w_wwn := 0; w_conn_down := true; w_list_fails := false; w_rival := None |}.

(** L: an image with two limits, its backend volume made. *)
Definition imgL : Image :=
  {| Meta := {| ID := "l"; Labels := ∅; Finalizers := [ImageFinalizer];
                DeletedAt := None |};
     Spec := {| Image_ := EmptyString; SnapshotRef := None; Size := GiB;
                Limits := {[ "rbd_qos_iops_limit" := 1000;
                             "rbd_qos_bps_limit" := 1048576 ]} |};
     Status := {| State := EmptyString; Access := None |} |}.

Definition worldL : World :=
  with_volumes (with_images empty_world {[ "l" := imgL ]}) {[ "img_l" := GiB ]} [].

(** The in-memory world with a backend that refuses metadata. *)
Definition handle_refusing : Handler World :=
  λ R c,
    match c in Call R return World → R * World with
    | ImageSetMetadata _ _ _ => λ w, (Some (Errorf "rbd: read-only image"), w)
    | c => handle _ c
    end.

(** ** Executions and what is read off a trace *)

(** [exec p t o]: the program can make the calls of [t], with the answers
    recorded there, and end with [o]. *)
Fixpoint exec {A : Type} (p : Prog A) (t : list Event) (o : Outcome A) : Prop :=
  match p with
  | Ret a => t = [] ∧ o = Returned a
  | Panic m => t = [] ∧ o = Panicked m
  | Do c k => ∃ r t', t = Ev c r :: t' ∧ exec (k r) t' o
  end.

(** A call to the backend that works on a volume. *)
Definition volume_call (e : Event) : bool :=
  match e with
  | Ev c _ =>
      match c with
      | RemoveImage _ _ | CreateImage _ _ _ _ | CloneImage _ _ _ _ _ _
      | OpenImage _ _ _ | ImageResize _ _ | ImageSetMetadata _ _ _
      | ImageClose _ => true
      | _ => false
      end
  end.

(** A call that mutates backend volume state: create, clone, resize,
    set metadata. *)
Definition backend_mutation (e : Event) : bool :=
  match e with
  | Ev c _ =>
      match c with
      | CreateImage _ _ _ _ | CloneImage _ _ _ _ _ _
      | ImageResize _ _ | ImageSetMetadata _ _ _ => true
      | _ => false
      end
  end.

(** A write to an entity store. *)
Definition store_write (e : Event) : bool :=
  match e with
  | Ev c _ =>
      match c with
      | ImagesUpdate _ | SnapshotsCreate _ => true
      | _ => false
      end
  end.

(** The image of an update of the image store. *)
Definition updated_image (e : Event) : option Image :=
  match e with
  | Ev c _ =>
      match c with
      | ImagesUpdate img => Some img
      | _ => None
      end
  end.

(** In the deletion path: the backend answered the removal with success
    or "volume not found", the store answered the update with success or
    "entity not found". *)
Definition gone_or_done (e : Event) : bool :=
  match e with
  | Ev c r =>
      match c in Call R return R → bool with
      | RemoveImage _ _ => λ r,
          bool_decide (r = None) || errors.Is r librbd.ErrNotFound
      | ImagesUpdate _ => λ r,
          bool_decide (r.2 = None) || errors.Is r.2 store.ErrNotFound
      | _ => λ _, true
      end r
  end.

(** The item a [Get] of the queue handed out (no shutdown). *)
Definition got_item (e : Event) : option string :=
  match e with
  | Ev c r =>
      match c in Call R return R → option string with
      | QueueGet => λ r, if r.2 then None else Some r.1
      | _ => λ _, None
      end r
  end.

(** The item of an [Add] to the queue. *)
Definition queue_added (e : Event) : option string :=
  match e with
  | Ev c _ =>
      match c with
      | QueueAdd item => Some item
      | _ => None
      end
  end.

(** An image depends on a snapshot when its reference is set and names it. *)
Definition dependent (snapshotID : string) (img : Image) : bool :=
  match img.(Spec).(SnapshotRef) with
  | Some snapshotRef => String.eqb snapshotRef snapshotID
  | None => false
  end.

(** The fetch answered with an image that has the finalizer, or an update
    of an image that has it was answered without error: from here on the
    intent to clean up is on record. *)
Definition secures_finalizer (e : Event) : bool :=
  match e with
  | Ev c r =>
      match c in Call R return R → bool with
      | ImagesGet _ => λ r,
          match r with
          | (Some img, None) => slices.Contains img.(Meta).(Finalizers) ImageFinalizer
          | _ => false
          end
      | ImagesUpdate img => λ r,
          match r.2 with
          | None => slices.Contains img.(Meta).(Finalizers) ImageFinalizer
          | Some _ => false
          end
      | _ => λ _, false
      end r
  end.

(** Every backend mutation of the trace comes after the finalizer was
    secured ([secured]: it already was before the trace). *)
Fixpoint guarded (secured : bool) (t : list Event) : bool :=
  match t with
  | [] => true
  | e :: t =>
      (negb (backend_mutation e) || secured)
      && guarded (secured || secures_finalizer e) t
  end.

(** The image a call of the image store shows: the one a fetch answered
    with, or the one handed to an update. *)
Definition image_seen (e : Event) : option Image :=
  match e with
  | Ev c r =>
      match c in Call R return R → option Image with
      | ImagesGet _ => λ r, match r.2 with None => r.1 | Some _ => None end
      | ImagesUpdate img => λ _, Some img
      | _ => λ _, None
      end r
  end.

(** Along a list of images, a snapshot reference that is set stays what
    it is in every later image. *)
Fixpoint refs_kept (l : list Image) : Prop :=
  match l with
  | [] => True
  | a :: l =>
      Forall (λ b, ∀ x, a.(Spec).(SnapshotRef) = Some x
                        → b.(Spec).(SnapshotRef) = Some x) l
      ∧ refs_kept l
  end.

(** The snapshot a lookup in the snapshot store answered with, without
    error. *)
Definition found_snapshot (e : Event) : option Snapshot :=
  match e with
  | Ev c r =>
      match c in Call R return R → option Snapshot with
      | SnapshotsGet _ => λ r, match r.2 with None => r.1 | Some _ => None end
      | _ => λ _, None
      end r
  end.

(** A [Create] of the snapshot store. *)
Definition snapshot_create (e : Event) : bool :=
  match e with
  | Ev c _ =>
      match c with
      | SnapshotsCreate _ => true
      | _ => false
      end
  end.

(** The error a [Create] of the snapshot store answered with. *)
Definition create_failure (e : Event) : option error :=
  match e with
  | Ev c r =>
      match c in Call R return R → option error with
      | SnapshotsCreate _ => λ r, r.2
      | _ => λ _, None
      end r
  end.

(** The item of an [AddRateLimited] to the queue. *)
Definition rate_limited (e : Event) : option string :=
  match e with
  | Ev c _ =>
      match c with
      | QueueAddRateLimited item => Some item
      | _ => None
      end
  end.

(** ** More that is read off a trace *)

(** Every call of every execution of the program satisfies [P]. *)
Definition emits {A : Type} (P : Event → Prop) (p : Prog A) : Prop :=
  ∀ t o, exec p t o → Forall P t.

(** Every event that [need]s it comes after one that provides it ([by_]);
    [seen]: one did before the trace. *)
Fixpoint preceded (need by_ : Event → bool) (seen : bool) (t : list Event) : bool :=
  match t with
  | [] => true
  | e :: t =>
      (negb (need e) || seen) && preceded need by_ (seen || by_ e) t
  end.

(** How many events of the trace satisfy [f]. *)
Fixpoint tally (f : Event → bool) (t : list Event) : nat :=
  match t with
  | [] => O
  | e :: t => (if f e then 1 else 0) + tally f t
  end.

(** A removal of a backend volume. *)
Definition removes_volume (e : Event) : bool :=
  match e with
  | Ev c _ =>
      match c with
      | RemoveImage _ _ => true
      | _ => false
      end
  end.

(** The fetch answered with an image that is marked deleted and carries
    the finalizer. *)
Definition fetched_for_deletion (e : Event) : bool :=
  match e with
  | Ev c r =>
      match c in Call R return R → bool with
      | ImagesGet _ => λ r,
          match r with
          | (Some img, None) =>
              bool_decide (img.(Meta).(DeletedAt) ≠ None)
              && slices.Contains img.(Meta).(Finalizers) ImageFinalizer
          | _ => false
          end
      | _ => λ _, false
      end r
  end.

(** An update that hands the store an Available image. *)
Definition marks_available (e : Event) : bool :=
  match e with
  | Ev c _ =>
      match c with
      | ImagesUpdate img => String.eqb img.(Status).(State) ImageStateAvailable
      | _ => false
      end
  end.

(** A backend volume was made (a create or a clone answered without
    error), or the image was Available when fetched. *)
Definition volume_known (e : Event) : bool :=
  match e with
  | Ev c r =>
      match c in Call R return R → bool with
      | CreateImage _ _ _ _ => λ r, bool_decide (r = None)
      | CloneImage _ _ _ _ _ _ => λ r, bool_decide (r = None)
      | ImagesGet _ => λ r,
          match r with
          | (Some img, None) => String.eqb img.(Status).(State) ImageStateAvailable
          | _ => false
          end
      | _ => λ _, false
      end r
  end.

(** The queue signalled shutdown. *)
Definition shutdown_signal (e : Event) : bool :=
  match e with
  | Ev c r =>
      match c in Call R return R → bool with
      | QueueGet => λ r, r.2
      | _ => λ _, false
      end r
  end.

(** Acquisitions and releases: an I/O context opened, an rbd image
    opened, image options allocated; and their release. *)
Definition opens_ioctx (e : Event) : bool :=
  match e with
  | Ev c r =>
      match c in Call R return R → bool with
      | ConnOpenIOContext _ => λ r, bool_decide (r = None)
      | _ => λ _, false
      end r
  end.

Definition destroys_ioctx (e : Event) : bool :=
  match e with
  | Ev c _ => match c with IOContextDestroy _ => true | _ => false end
  end.

Definition opens_image (e : Event) : bool :=
  match e with
  | Ev c r =>
      match c in Call R return R → bool with
      | OpenImage _ _ _ => λ r, bool_decide (r = None)
      | _ => λ _, false
      end r
  end.

Definition closes_image (e : Event) : bool :=
  match e with
  | Ev c _ => match c with ImageClose _ => true | _ => false end
  end.

Definition allocates_options (e : Event) : bool :=
  match e with
  | Ev c _ => match c with NewRbdImageOptions => true | _ => false end
  end.

Definition destroys_options (e : Event) : bool :=
  match e with
  | Ev c _ => match c with OptionsDestroy => true | _ => false end
  end.

(** Every value the program can return satisfies [Q]. *)
Definition returns {A : Type} (Q : A → Prop) (p : Prog A) : Prop :=
  ∀ t a, exec p t (Returned a) → Q a.

(** A call to the work queue. *)
Definition queue_call (e : Event) : bool :=
  match e with
  | Ev c _ =>
      match c with
      | QueueGet | QueueDone _ | QueueAdd _ | QueueAddRateLimited _
      | QueueForget _ => true
      | _ => false
      end
  end.

(** The trace ends where the queue signals shutdown. *)
Fixpoint ends_at_shutdown (t : list Event) : bool :=
  match t with
  | [] => true
  | e :: t =>
      if shutdown_signal e then bool_decide (t = []) else ends_at_shutdown t
  end.

(** The fetch answered with an image that is marked deleted. *)
Definition fetched_deleted (e : Event) : bool :=
  match e with
  | Ev c r =>
      match c in Call R return R → bool with
      | ImagesGet _ => λ r,
          match r with
          | (Some img, None) => bool_decide (img.(Meta).(DeletedAt) ≠ None)
          | _ => false
          end
      | _ => λ _, false
      end r
  end.

(** The calls of the deletion path and of the prologue around it. *)
Definition deletion_call (e : Event) : bool :=
  match e with
  | Ev c _ =>
      match c with
      | ConnOpenIOContext _ | ImagesGet _ | RemoveImage _ _ | ImagesUpdate _
      | IOContextDestroy _ => true
      | _ => false
      end
  end.

(** What [reconcileImage] never changes of an image: its ID, its labels,
    its deletion time, and the source, the size and the limits of its
    spec. *)
Definition same_identity (a b : Image) : Prop :=
  b.(Meta).(ID) = a.(Meta).(ID)
  ∧ b.(Meta).(Labels) = a.(Meta).(Labels)
  ∧ b.(Meta).(DeletedAt) = a.(Meta).(DeletedAt)
  ∧ b.(Spec).(Image_) = a.(Spec).(Image_)
  ∧ b.(Spec).(Size) = a.(Spec).(Size)
  ∧ b.(Spec).(Limits) = a.(Spec).(Limits).

(** The backend volume a call works on; for a clone, the child. *)
Definition volume_target (e : Event) : option string :=
  match e with
  | Ev c _ =>
      match c with
      | RemoveImage _ name | CreateImage _ name _ _ | OpenImage _ name _ => Some name
      | CloneImage _ _ _ _ child _ => Some child
      | ImageResize img _ | ImageSetMetadata img _ _ | ImageClose img =>
          Some img.(rbd_name)
      | _ => None
      end
  end.

(** The image fetched: the answer of the second call of a run of
    [reconcileImage], when it is a fetch answered without error. *)
Definition fetched (t : list Event) : option Image :=
  match t !! 1%nat with
  | Some (Ev c r) =>
      match c in Call R return R → option Image with
      | ImagesGet _ => λ r, match r.2 with None => r.1 | Some _ => None end
      | _ => λ _, None
      end r
  | None => None
  end.

(** The setting of one limit as metadata of the volume, answered without
    error. *)
Definition limit_set (img : RbdImage) (entry : string * Z) : Event :=
  Ev (ImageSetMetadata img (LimitMetadataPrefix +:+ entry.1) (pretty entry.2)) None.

(** A [SetMetadata] that was answered with an error. *)
Definition metadata_failed (e : Event) : bool :=
  match e with
  | Ev c r =>
      match c in Call R return R → bool with
      | ImageSetMetadata _ _ _ => λ r, bool_decide (r ≠ None)
      | _ => λ _, false
      end r
  end.

(** The snapshot handed to a [Create] of the snapshot store. *)
Definition created_snapshot (e : Event) : option Snapshot :=
  match e with
  | Ev c _ =>
      match c with
      | SnapshotsCreate snap => Some snap
      | _ => None
      end
  end.

(** The status [reconcileImage] gives an image it has provisioned. *)
Definition available_status (r : ImageReconciler) (img : Image) (key wwn : string)
  : ImageStatus :=
  {| State := ImageStateAvailable;
     Access := Some
       {| Monitors := r.(monitors);
          Handle := r.(pool) +:+ "/" +:+ img.(Meta).(ID);
          User := strings.TrimPrefix r.(client) "client.";
          UserKey := key;
          WWN := wwn |} |}.

(** The command [fetchAuth] sends to the monitors. *)
Definition auth_command `{Externals} (r : ImageReconciler) : string :=
  (json_Marshal
     (<["prefix" := "auth get-key"]>
        (<["entity" := r.(client)]> (<["format" := "json"]> ∅)))).1.

(** A program that starts with [n] resources held ends with [m a] held
    when it returns [a], and with none when it panics: [f] says which
    events acquire one, [g] which release one. *)
Definition owes (f g : Event → bool) {A : Type} (n : nat) (p : Prog A)
    (m : A → nat) : Prop :=
  ∀ t o, exec p t o →
    (n + tally f t
     = match o with Returned a => m a | Panicked _ => 0 end + tally g t)%nat.

(** The snapshot [reconcileSnapshot] asks the store to create for the
    source at [locator] resolved to [digest]. *)
Definition new_snapshot (locator digest : string) : Snapshot :=
  {| SnapMeta := {| ID := digest;
                    Labels := {[ imageDigestLabel := digest ]};
                    Finalizers := [];
                    DeletedAt := None |};
     Source := {| OnmetalImage := locator +:+ "@" +:+ digest |};
     SnapStatus := {| SnapState := "" |} |}.

(** The event is not an update of an image. *)
Definition no_update (e : Event) : Prop := updated_image e = None.

(** The updates hand the store an image with the identity of [img0], and
    the volume calls work on the volume named after its ID. *)
Definition about `{Externals} (img0 : Image) (e : Event) : Prop :=
  from_option (same_identity img0) True (updated_image e)
  ∧ from_option (λ name, name = ImageIDToRBDID img0.(Meta).(ID)) True (volume_target e).

(** A clone of a backend volume. *)
Definition clones_volume (e : Event) : bool :=
  match e with
  | Ev c _ => match c with CloneImage _ _ _ _ _ _ => true | _ => false end
  end.

(** An answer that leaves Go with a nil pointer it goes on to read: no
    object and no error, or, from the lookup of a snapshot, no object
    next to "not found". *)
Definition nil_answer (e : Event) : bool :=
  match e with
  | Ev c r =>
      match c in Call R return R → bool with
      | ImagesGet _ => λ r,
          match r with (None, None) => true | _ => false end
      | RegistryResolve _ => λ r,
          match r with (None, None) => true | _ => false end
      | SnapshotsCreate _ => λ r,
          match r with (None, None) => true | _ => false end
      | SnapshotsGet _ => λ r,
          match r with
          | (None, err) =>
              bool_decide (err = None) || errors.Is err store.ErrNotFound
          | _ => false
          end
      | _ => λ _, false
      end r
  end.

(** A program panics only after a nil answer ([seen]: there was one
    before it started). *)
Definition careful {A : Type} (seen : bool) (p : Prog A) : Prop :=
  ∀ t m, exec p t (Panicked m) → seen || existsb nil_answer t = true.

(** ** Reasoning about executions *)

(** What [run] does is an execution, whatever the handler. *)
Lemma run_exec {W A : Type} (h : Handler W) (p : Prog A) (w : W) :
  exec p (trace (run h p w)) (outcome (run h p w)).
Proof.
  revert w. induction p as [a|m|R c k IH]; intros w; cbn; [done..|].
  destruct (h R c w) as [r w1] eqn:Hc.
  specialize (IH r w1).
  destruct (run h (k r) w1) as [[o w2] t] eqn:Hr.
  exists r, t. split; [done|]. exact IH.
Qed.

(** An execution of [p ≫= f] is one of [p] followed by one of [f], or
    one of [p] that panics. *)
Lemma exec_bind_inv {A B : Type} (p : Prog A) (f : A → Prog B) t o :
  exec (bind p f) t o →
  (∃ a t1 t2, exec p t1 (Returned a) ∧ exec (f a) t2 o ∧ t = t1 ++ t2)
  ∨ (∃ m, exec p t (Panicked m) ∧ o = Panicked m).
Proof.
  revert t. induction p as [a|m|R c k IH]; intros t; cbn.
  - intros Hf. left. exists a, [], t. done.
  - intros [-> ->]. right. by exists m.
  - intros (r & t' & -> & Hk). destruct (IH r t' Hk) as [(a & t1 & t2 & H1 & H2 & ->)|(m & H1 & ->)].
    + left. exists a, (Ev c r :: t1), t2. split; [by exists r, t1|]. done.
    + right. exists m. split; [by exists r, t'|done].
Qed.

(** An execution under [defer] is one of the body followed by the
    deferred call, whatever the body came to. *)
Lemma exec_defer_inv {A : Type} (c : Call unit) (body : Prog A) t o :
  exec (defer (call c) body) t o →
  ∃ t1 r, exec body t1 o ∧ t = t1 ++ [Ev c r].
Proof.
  revert t. induction body as [a|m|R' c' k IH]; intros t; cbn.
  - intros (r & t' & -> & -> & ->). by exists [], r.
  - intros (r & t' & -> & -> & ->). by exists [], r.
  - intros (r' & t' & -> & Hk). destruct (IH r' t' Hk) as (t1 & r & H1 & ->).
    exists (Ev c' r' :: t1), r. split; [by exists r', t1|done].
Qed.

(** Stepping through an execution: a return or a panic ends it, a call
    adds its event, a deferred call is split off the end, and a branch on
    an answer is decided by cases. *)
Ltac exec_outcome Ho :=
  lazymatch type of Ho with
  | ?x = _ =>
      first [ is_var x; subst x
            | discriminate Ho
            | injection Ho as Ho; try subst
            | clear Ho ]
  end.

Ltac exec_head H :=
  lazymatch type of H with
  | exec (Ret _) _ _ =>
      let Ho := fresh "Ho" in destruct H as [-> Ho]; exec_outcome Ho
  | exec (Panic _) _ _ =>
      let Ho := fresh "Ho" in destruct H as [-> Ho]; exec_outcome Ho
  | exec (Do _ _) _ _ =>
      let r := fresh "r" in
      let t := fresh "t" in
      destruct H as (r & t & -> & H)
  | exec (defer (call _) _) _ _ =>
      let t := fresh "t" in
      let u := fresh "u" in
      apply exec_defer_inv in H as (t & u & H & ->)
  | exec (match ?x with _ => _ end) _ _ => destruct x eqn:?
  | exec (if ?b then _ else _) _ _ => destruct b eqn:?
  | exec (mbind _ (match ?x with _ => _ end)) _ _ => destruct x eqn:?
  | exec (mbind _ (if ?b then _ else _)) _ _ => destruct b eqn:?
  | exec (bind (match ?x with _ => _ end) _) _ _ => destruct x eqn:?
  | exec (bind (if ?b then _ else _) _) _ _ => destruct b eqn:?
  end.

Ltac exec_norm H :=
  cbn beta iota delta [bind mbind Prog_bind mret Prog_ret call defer] in H;
  fold (@bind) in H.

Ltac exec_steps H := repeat (exec_norm H; exec_head H).

(** ** The deletion path *)

Section DeleteImage.

Context `{Externals} {W : Type} (h : Handler W).

(** C5.  The deletion path is idempotent.  Without the finalizer it
    returns success at once, with no call at all.  With it, success of
    the removal or "volume not found", followed by success of the
    update or "entity not found", ends in success; a second invocation,
    on an image without the finalizer or against a backend and a store
    that answer "not found", is one of these two cases. *)
Theorem deleteImage_idempotent (w : W) (ioCtx : IOContext) (image : Image) :
  let res := run h (deleteImage ioCtx image) w in
  (slices.Contains image.(Meta).(Finalizers) ImageFinalizer = false →
     res = (Returned (image, None), w, []))
  ∧ (forallb gone_or_done (trace res) = true →
       ∃ image', outcome res = Returned (image', None)).
Proof.
  cbn zeta. split.
  - intros Hf. unfold deleteImage. by rewrite Hf.
  - pose proof (run_exec h (deleteImage ioCtx image) w) as Hx.
    revert Hx. generalize (trace (run h (deleteImage ioCtx image) w)).
    generalize (outcome (run h (deleteImage ioCtx image) w)).
    intros o t Hx Hok. unfold deleteImage in Hx.
    exec_steps Hx; cbn in Hok; eauto.
    all: unfold store.IgnoreErrNotFound, errors.Is in *.
    all: repeat case_match; simplify_eq; eauto.
    all: rewrite ?andb_true_r in Hok; try congruence.
    all: try (rewrite Hok in *; done).
    all: apply andb_true_iff in Hok as [_ Hok]; rewrite orb_false_r in Hok.
    all: by apply bool_decide_eq_true in Hok.
Qed.

(** C10.  The deletion path assigns the finalizers and nothing else:
    the image it leaves behind and every image it hands to the store
    have the ID, labels, deletion time, spec and status it was invoked
    on, whether it returns success or an error; and it never panics. *)
Theorem deleteImage_frame (w : W) (ioCtx : IOContext) (image : Image) :
  let res := run h (deleteImage ioCtx image) w in
  let same (image' : Image) :=
    image'.(Spec) = image.(Spec) ∧ image'.(Status) = image.(Status)
    ∧ image'.(Meta).(ID) = image.(Meta).(ID)
    ∧ image'.(Meta).(Labels) = image.(Meta).(Labels)
    ∧ image'.(Meta).(DeletedAt) = image.(Meta).(DeletedAt) in
  (∃ image' err, outcome res = Returned (image', err) ∧ same image')
  ∧ Forall (λ e, from_option same True (updated_image e)) (trace res).
Proof.
  cbn zeta.
  pose proof (run_exec h (deleteImage ioCtx image) w) as Hx.
  revert Hx. generalize (trace (run h (deleteImage ioCtx image) w)).
  generalize (outcome (run h (deleteImage ioCtx image) w)).
  intros o t Hx. unfold deleteImage in Hx.
  exec_steps Hx.
  all: split; [eexists _, _; split; [reflexivity|done]|].
  all: repeat constructor; done.
Qed.

End DeleteImage.

(** ** The work queue and the event handlers *)

Section Queue.

Context `{Externals} {W : Type} (h : Handler W) (r : ImageReconciler).

(** C9.  Whenever [Get] hands out an item, the last call of
    [processNextWorkItem] is [Done] on that item, whatever the
    reconciliation did in between: success, error or panic. *)
Theorem processNextWorkItem_done (w : W) (item : string) :
  let res := run h (processNextWorkItem r) w in
  head (trace res) ≫= got_item = Some item →
  last (trace res) = Some (Ev (QueueDone item) tt).
Proof.
  cbn zeta.
  pose proof (run_exec h (processNextWorkItem r) w) as Hx.
  revert Hx. generalize (trace (run h (processNextWorkItem r) w)).
  generalize (outcome (run h (processNextWorkItem r) w)).
  intros o t Hx. unfold processNextWorkItem in Hx.
  exec_norm Hx. exec_head Hx. destruct r0 as [item' shutdown].
  exec_norm Hx. exec_head Hx.
  - exec_head Hx. cbn. done.
  - exec_head Hx. cbn. intros [= ->]. destruct u.
    rewrite app_comm_cons. apply last_snoc.
Qed.

(** The loop of the handler adds the dependent images of the list, in
    order, and nothing else. *)
Lemma enqueueDependents_exec snapshotID imageList t o :
  exec (enqueueDependents snapshotID imageList) t o →
  o = Returned tt
  ∧ t = (λ img, Ev (QueueAdd img.(Meta).(ID)) tt)
          <$> filter (λ img, dependent snapshotID img = true) imageList.
Proof.
  revert t. induction imageList as [|img l IH]; intros t Hx.
  - cbn in Hx. destruct Hx as [-> ->]. done.
  - cbn [enqueueDependents] in Hx. rewrite filter_cons.
    assert (match SnapshotRef (Spec img) with
            | Some snapshotRef =>
                if String.eqb snapshotRef snapshotID
                then call (QueueAdd img.(Meta).(ID)) else Ret tt
            | None => Ret tt
            end
            = if dependent snapshotID img
              then call (QueueAdd img.(Meta).(ID)) else Ret tt) as Hm.
    { unfold dependent. destruct (SnapshotRef _) as [ref|]; [|done].
      by destruct (String.eqb ref snapshotID). }
    rewrite Hm in Hx. clear Hm.
    destruct (dependent snapshotID img) eqn:Hd.
    + exec_norm Hx. exec_head Hx. destruct r0.
      apply IH in Hx as [-> ->]. rewrite decide_True by done. done.
    + exec_norm Hx. apply IH in Hx as [-> ->]. rewrite decide_False by done. done.
Qed.

(** C8, as the code has it.  The snapshot event handler makes no call at
    all for an event that is not an update to Populated.  For one that is,
    it lists the images; when the listing succeeds it adds exactly the
    dependent images of the list to the queue, in the order listed; when
    the listing fails it adds nothing. *)
Theorem snapshotEventHandler_enqueues (w : W) (evt : event.Event Snapshot) :
  let res := run h (snapshotEventHandler evt) w in
  let populated :=
    bool_decide (evt.(event.Type') = event.TypeUpdated)
    && String.eqb evt.(event.Object).(SnapStatus).(SnapState) SnapshotStatePopulated in
  outcome res = Returned tt
  ∧ if populated
    then ∃ imageList err,
        trace res =
          Ev ImagesList (imageList, err)
          :: match err with
             | None =>
                 (λ img, Ev (QueueAdd img.(Meta).(ID)) tt)
                   <$> filter (λ img, dependent evt.(event.Object).(SnapMeta).(ID) img = true)
                         imageList
             | Some _ => []
             end
    else trace res = [].
Proof.
  cbn zeta.
  pose proof (run_exec h (snapshotEventHandler evt) w) as Hx.
  revert Hx. generalize (trace (run h (snapshotEventHandler evt) w)).
  generalize (outcome (run h (snapshotEventHandler evt) w)).
  intros o t Hx. unfold snapshotEventHandler in Hx.
  destruct (decide (event.Type' evt = event.TypeUpdated)) as [Hu|Hu].
  - rewrite (bool_decide_eq_false_2 (_ ≠ _)) in Hx by tauto.
    rewrite bool_decide_eq_true_2 by done. cbn [orb andb] in *.
    destruct (String.eqb _ _); cbn [negb] in Hx.
    + exec_norm Hx. exec_head Hx. destruct r0 as [imageList err].
      exec_norm Hx. destruct err as [e|].
      * exec_head Hx. split; [done|]. by exists imageList, (Some e).
      * apply enqueueDependents_exec in Hx as [-> ->].
        split; [done|]. by exists imageList, None.
    + exec_head Hx. done.
  - rewrite (bool_decide_eq_true_2 (_ ≠ _)) in Hx by done.
    rewrite bool_decide_eq_false_2 by done. cbn [orb andb] in *.
    exec_head Hx. done.
Qed.

End Queue.

(** ** The finalizer comes first *)

Lemma guarded_secured t : guarded true t = true.
Proof. induction t as [|e t IH]; [done|]. cbn. by rewrite orb_true_r. Qed.

Lemma guarded_app s t1 t2 :
  guarded s (t1 ++ t2)
  = guarded s t1 && guarded (s || existsb secures_finalizer t1) t2.
Proof.
  revert s. induction t1 as [|e t1 IH]; intros s; cbn.
  - by rewrite orb_false_r.
  - rewrite IH, orb_assoc, andb_assoc. done.
Qed.

Lemma guarded_quiet s t :
  forallb (λ e, negb (backend_mutation e)) t = true → guarded s t = true.
Proof.
  revert s. induction t as [|e t IH]; intros s; cbn; [done|].
  intros [-> Ht]%andb_true_iff. cbn. by apply IH.
Qed.

Lemma guarded_sound s t :
  guarded s t = true →
  ∀ pre e post, t = pre ++ e :: post → backend_mutation e = true →
  s || existsb secures_finalizer pre = true.
Proof.
  revert s. induction t as [|e' t IH]; intros s Hg pre e post Heq Hm.
  - by destruct pre.
  - cbn in Hg. apply andb_true_iff in Hg as [Hh Hg].
    destruct pre as [|p pre]; cbn in Heq; simplify_eq.
    + rewrite Hm in Hh. cbn in *. by rewrite Hh.
    + cbn. rewrite orb_assoc. by eapply IH.
Qed.

Lemma Contains_snoc (fs : list string) (x : string) :
  slices.Contains (fs ++ [x]) x = true.
Proof. unfold slices.Contains. apply bool_decide_eq_true_2. set_solver. Qed.

Section Finalizer.

Context `{Externals} {W : Type} (h : Handler W) (r : ImageReconciler).

Lemma deleteImage_quiet ioCtx image t o :
  exec (deleteImage ioCtx image) t o →
  forallb (λ e, negb (backend_mutation e)) t = true.
Proof. unfold deleteImage. intros Hx. exec_steps Hx; done. Qed.

Lemma reconcileImage_guarded id t o :
  exec (reconcileImage r id) t o → guarded false t = true.
Proof.
  unfold reconcileImage, ensureFinalizer. intros Hx.
  exec_steps Hx; try done.
  - (* the deletion path *)
    apply exec_bind_inv in Hx as [(a & t1 & t2 & H1 & H2 & ->)|(m & H1 & ->)].
    + apply deleteImage_quiet in H1. destruct a as [? [?|]]; exec_steps H2.
      all: apply guarded_quiet; cbn; rewrite !forallb_app, H1; done.
    + apply deleteImage_quiet in H1.
      apply guarded_quiet; cbn; rewrite forallb_app, H1; done.
  - (* the finalizer was just written *)
    cbn [guarded app backend_mutation secures_finalizer negb orb andb snd
         set_Finalizers Meta Finalizers].
    rewrite Contains_snoc, orb_true_r. apply guarded_secured.
  - (* the finalizer was there *)
    cbn [guarded app backend_mutation secures_finalizer negb orb andb].
    apply negb_false_iff in Heqb1. rewrite Heqb1.
    apply guarded_secured.
Qed.

(** C3.  In every run of [reconcileImage], each backend volume mutation
    (create, clone, resize, set metadata) comes after an event that
    secured the finalizer: the fetch answered with an image that carries
    it, or an update of an image that carries it succeeded. *)
Theorem finalizer_before_mutation (w : W) (id : string)
    (pre : list Event) (e : Event) (post : list Event) :
  trace (run h (reconcileImage r id) w) = pre ++ e :: post →
  backend_mutation e = true →
  existsb secures_finalizer pre = true.
Proof.
  intros Ht Hm.
  pose proof (reconcileImage_guarded id _ _ (run_exec h (reconcileImage r id) w)) as Hg.
  exact (guarded_sound false _ Hg pre e post Ht Hm).
Qed.

(** C4, as the code has it.  Once the I/O context is open and the store
    has answered with an image that is Available and not deleted,
    [reconcileImage] returns success; its calls are these two and the
    release of the context: no volume call, no store write. *)
Theorem reconcileImage_available_noop (w w1 w2 : W) (id : string) (img : Image) :
  h _ (ConnOpenIOContext r.(pool)) w = (None, w1) →
  h _ (ImagesGet id) w1 = ((Some img, None), w2) →
  img.(Meta).(DeletedAt) = None →
  img.(Status).(State) = ImageStateAvailable →
  let res := run h (reconcileImage r id) w in
  res = (Returned None, (h _ (IOContextDestroy r.(pool)) w2).2,
         [Ev (ConnOpenIOContext r.(pool)) None;
          Ev (ImagesGet id) (Some img, None);
          Ev (IOContextDestroy r.(pool)) tt])
  ∧ forallb (λ e, negb (volume_call e) && negb (store_write e)) (trace res) = true.
Proof.
  intros Ho Hg Hd Hs. cbn zeta.
  assert (run h (reconcileImage r id) w
          = (Returned None, (h _ (IOContextDestroy r.(pool)) w2).2,
             [Ev (ConnOpenIOContext r.(pool)) None;
              Ev (ImagesGet id) (Some img, None);
              Ev (IOContextDestroy r.(pool)) tt])) as ->.
  { unfold reconcileImage. cbn. rewrite Ho. cbn. rewrite Hg. cbn.
    rewrite Hd, Hs. cbn.
    destruct (h _ (IOContextDestroy (pool r)) w2) as [[] w3]. done. }
  done.
Qed.

End Finalizer.

(** ** The snapshot reference *)

(** Walking through an execution, sub-functions included: [sub] says
    what is known of the execution of each sub-function. *)
Ltac exec_go H sub :=
  repeat (exec_norm H; exec_head H);
  first
    [ lazymatch type of H with
      | exec (mbind _ _) _ _ => idtac
      | exec (bind _ _) _ _ => idtac
      end;
      let H1 := fresh "Hs" in
      let a := fresh "a" in
      let t1 := fresh "t" in
      let t2 := fresh "t" in
      let m := fresh "m" in
      let Ho := fresh "Ho" in
      apply exec_bind_inv in H as [(a & t1 & t2 & H1 & H & ->)|(m & H1 & Ho)];
      [ exec_go H1 sub; exec_go H sub
      | first [ discriminate Ho | subst; exec_go H1 sub ] ]
    | sub H
    | idtac ].

Lemma omap_seen_cons (e : Event) (t : list Event) :
  omap image_seen (e :: t)
  = match image_seen e with
    | Some img => img :: omap image_seen t
    | None => omap image_seen t
    end.
Proof. done. Qed.

Lemma omap_seen_nil : omap image_seen [] = [].
Proof. done. Qed.

(** Computing the images seen along a trace made of known pieces. *)
Ltac seen_simpl :=
  rewrite ?app_nil_r;
  repeat first
    [ rewrite omap_app
    | rewrite omap_seen_cons
    | rewrite omap_seen_nil
    | match goal with Hs : omap image_seen _ = _ |- _ => rewrite Hs end ];
  cbn [image_seen app fst snd].

Lemma refs_kept_all_same (q : option string) (l : list Image) :
  Forall (λ b, b.(Spec).(SnapshotRef) = q) l → refs_kept l.
Proof.
  induction 1 as [|a l Ha Hl IH]; cbn; [done|]. split; [|done].
  eapply Forall_impl; [exact Hl|]. cbn. intros b Hb x. congruence.
Qed.

Lemma refs_kept_app_same (q : option string) (l1 l2 : list Image) :
  Forall (λ b, b.(Spec).(SnapshotRef) = None) l1 →
  Forall (λ b, b.(Spec).(SnapshotRef) = q) l2 →
  refs_kept (l1 ++ l2).
Proof.
  intros H1 H2. induction H1 as [|a l1 Ha Hl IH]; cbn.
  - by eapply refs_kept_all_same.
  - split; [|done]. apply Forall_forall. intros b _ x. congruence.
Qed.

Ltac refs_finish :=
  rewrite ?app_nil_r;
  cbn [set_Finalizers set_SnapshotRef set_Status Spec SnapshotRef] in *;
  repeat match goal with
    | |- refs_kept [] => exact I
    | |- True => exact I
    | |- refs_kept (_ :: _) => split
    | |- refs_kept (_ ++ _) => rewrite ?app_nil_r
    | |- refs_kept (omap _ _) =>
        eapply refs_kept_all_same, Forall_impl; [eassumption|];
        cbn; intros ? ->; reflexivity
    | |- Forall _ [] => apply Forall_nil
    | |- Forall _ (_ :: _) => apply Forall_cons; split
    | |- Forall _ (_ ++ _) => apply Forall_app; split
    | |- Forall _ (omap _ _) =>
        eapply Forall_impl; [eassumption|]; cbn; intros ? ->; cbn
    | |- ∀ x, _ = Some x → _ => intros ? ?; cbn in *; congruence
    end.

Section SnapshotRef.

Context `{Externals} {W : Type} (h : Handler W) (r : ImageReconciler).

Lemma deleteImage_images ioCtx image t o :
  exec (deleteImage ioCtx image) t o →
  Forall (λ b, b.(Spec) = image.(Spec)) (omap image_seen t).
Proof.
  unfold deleteImage. intros Hx.
  exec_steps Hx; cbn; repeat constructor.
Qed.

Lemma setImageLimits_range_images img limits t o :
  exec (setImageLimits_range img limits) t o → omap image_seen t = [].
Proof.
  revert t. induction limits as [|[limit value] limits IH]; intros t Hx.
  - cbn in Hx. by destruct Hx as [-> _].
  - cbn [setImageLimits_range] in Hx. exec_steps Hx; try done.
    cbn. by apply IH.
Qed.

Lemma setImageLimits_images ioCtx image t o :
  exec (setImageLimits ioCtx image) t o → omap image_seen t = [].
Proof.
  unfold setImageLimits. intros Hx. exec_steps Hx; try done.
  apply exec_bind_inv in Hx as [(a & t1 & t2 & H1 & H2 & ->)|(m & H1 & ->)].
  - apply setImageLimits_range_images in H1.
    cbn. rewrite omap_app, H1. exec_steps H2; done.
  - apply setImageLimits_range_images in H1. done.
Qed.

Lemma createImageFromSnapshot_images ioCtx image ref opts t o :
  exec (createImageFromSnapshot r ioCtx image ref opts) t o →
  omap image_seen t = [].
Proof.
  unfold createImageFromSnapshot. intros Hx.
  exec_steps Hx; done.
Qed.

Lemma createEmptyImage_images ioCtx image opts t o :
  exec (createEmptyImage ioCtx image opts) t o → omap image_seen t = [].
Proof. unfold createEmptyImage. intros Hx. exec_steps Hx; done. Qed.

Lemma fetchAuth_images t o :
  exec (fetchAuth r) t o → omap image_seen t = [].
Proof. unfold fetchAuth. intros Hx. exec_steps Hx; done. Qed.

Lemma provision_images ioCtx img t o :
  exec (provision r ioCtx img) t o →
  Forall (λ b, b.(Spec) = img.(Spec)) (omap image_seen t).
Proof.
  unfold provision. intros Hx.
  exec_go Hx ltac:(fun H' =>
    first [ apply createImageFromSnapshot_images in H'
          | apply createEmptyImage_images in H'
          | apply setImageLimits_images in H'
          | apply fetchAuth_images in H' ]).
  all: seen_simpl; repeat constructor.
Qed.

Lemma reconcileSnapshot_images img t o :
  exec (reconcileSnapshot img) t o →
  (omap image_seen t = [] ∧ ∀ img' err, o = Returned (img', err) → img' = img)
  ∨ (img.(Spec).(SnapshotRef) = None
     ∧ ∃ x, omap image_seen t = [set_SnapshotRef img (Some x)]
            ∧ ∀ img' err, o = Returned (img', err)
                          → img' = set_SnapshotRef img (Some x)).
Proof.
  unfold reconcileSnapshot, recordSnapshotRef. intros Hx.
  destruct (negb _) eqn:Hguard.
  { exec_steps Hx. left. split; [done|]. by intros ?? [= <- _]. }
  apply negb_false_iff, andb_true_iff in Hguard as [_ Hnil%bool_decide_eq_true].
  exec_steps Hx.
  all: first [ left; split; [done|]; by intros ?? [= <- _]
             | left; split; [done|]; by intros ??
             | right; split; [done|]; eexists; split; [reflexivity|];
               by intros ?? [= <- _] ].
Qed.

Lemma reconcileImage_refs id t o :
  exec (reconcileImage r id) t o → refs_kept (omap image_seen t).
Proof.
  unfold reconcileImage, ensureFinalizer. intros Hx.
  exec_go Hx ltac:(fun H' =>
    first [ apply deleteImage_images in H'
          | apply reconcileSnapshot_images in H'
          | apply provision_images in H' ]).
  all: repeat match goal with
       | Hs : _ ∨ _ |- _ =>
           let Hi := fresh "Hi" in
           let Hn := fresh "Hn" in
           let x := fresh "x" in
           destruct Hs as [[Hs Hi]|(Hn & x & Hs & Hi)];
           try (specialize (Hi _ _ eq_refl); subst)
       end.
  all: seen_simpl; refs_finish.
Qed.

Lemma reconcileSnapshot_guard img (w : W) :
  img.(Spec).(Image_) = EmptyString ∨ img.(Spec).(SnapshotRef) ≠ None →
  run h (reconcileSnapshot img) w = (Returned (img, None), w, []).
Proof.
  intros Hg. unfold reconcileSnapshot.
  destruct (negb _) eqn:Hb; [done|].
  apply negb_false_iff, andb_true_iff in Hb as [Hn Hr].
  apply bool_decide_eq_true in Hr. apply negb_true_iff, String.eqb_neq in Hn.
  tauto.
Qed.

Lemma reconcileSnapshot_found img t o snap :
  exec (reconcileSnapshot img) t o →
  snap ∈ omap found_snapshot t →
  forallb (λ e, negb (snapshot_create e)) t = true
  ∧ ∃ err, o = Returned (set_SnapshotRef img (Some snap.(SnapMeta).(ID)), err).
Proof.
  unfold reconcileSnapshot, recordSnapshotRef. intros Hx.
  exec_steps Hx; cbn.
  all: rewrite ?list_elem_of_singleton; try (intros Hin; by apply not_elem_of_nil in Hin).
  all: intros <-; split; [done|]; eauto.
Qed.

(** C6.  The snapshot reference is set at most once and never cleared.
    [reconcileSnapshot] does nothing at all unless the spec names a source
    image and the reference is nil.  Along every run of [reconcileImage],
    over the image fetched and every image handed to the store for an
    update, a reference that is set stays the same in every later one.
    And when the lookup by digest finds the snapshot, no snapshot is
    created and the reference recorded is the ID of the one found. *)
Theorem snapshotRef_set_once (w : W) (id : string) (img : Image) :
  (img.(Spec).(Image_) = EmptyString ∨ img.(Spec).(SnapshotRef) ≠ None →
     run h (reconcileSnapshot img) w = (Returned (img, None), w, []))
  ∧ refs_kept (omap image_seen (trace (run h (reconcileImage r id) w)))
  ∧ (∀ snap,
       snap ∈ omap found_snapshot (trace (run h (reconcileSnapshot img) w)) →
       forallb (λ e, negb (snapshot_create e))
         (trace (run h (reconcileSnapshot img) w)) = true
       ∧ ∃ err, outcome (run h (reconcileSnapshot img) w)
                = Returned (set_SnapshotRef img (Some snap.(SnapMeta).(ID)), err)).
Proof.
  split; [apply reconcileSnapshot_guard|]. split.
  - eapply reconcileImage_refs, run_exec.
  - intros snap. eapply reconcileSnapshot_found, run_exec.
Qed.

End SnapshotRef.

(** ** The clone step *)

Section Clone.

Context `{Externals} (r : ImageReconciler).

Lemma createImageFromSnapshot_success {W : Type} (h : Handler W) ioCtx image ref opts t :
  exec (createImageFromSnapshot r ioCtx image ref opts) t (Returned (true, None)) →
  ∃ snapshot,
    snapshot.(SnapStatus).(SnapState) = SnapshotStatePopulated
    ∧ let img := {| rbd_ioctx := ioCtx;
                    rbd_name := ImageIDToRBDID image.(Meta).(ID) |} in
      t = [Ev (SnapshotsGet ref) (Some snapshot, None);
           Ev (ConnOpenIOContext r.(pool)) None;
           Ev (CloneImage r.(pool) (SnapshotIDToRBDID snapshot.(SnapMeta).(ID))
                 ImageSnapshotVersion ioCtx (ImageIDToRBDID image.(Meta).(ID)) opts)
              None;
           Ev (OpenImage ioCtx (ImageIDToRBDID image.(Meta).(ID)) librbd.NoSnapshot)
              None;
           Ev (ImageResize img (OffBytes image.(Spec).(Size))) None;
           Ev (ImageClose img) None;
           Ev (IOContextDestroy r.(pool)) tt].
Proof.
  unfold createImageFromSnapshot. intros Hx.
  exec_steps Hx.
  exists s. split.
  - apply negb_false_iff in Heqb. by apply String.eqb_eq in Heqb.
  - destruct u. reflexivity.
Qed.

(** C7, as the code has it.  A successful clone is followed by a resize
    to the rounded spec size, whatever the size of the snapshot: the calls
    of a successful run are the lookup, the clone, and a resize to
    [OffBytes] of the spec size, with no comparison of sizes in between.
    In the in-memory backend, where a clone inherits the size of its
    parent and a resize sets the size, the volume ends at exactly the
    rounded spec size. *)
Theorem clone_resized_to_spec {W : Type} (h : Handler W) (w0 : W) (w : World)
    ioCtx image ref opts :
  let p := createImageFromSnapshot r ioCtx image ref opts in
  let img := {| rbd_ioctx := ioCtx;
                rbd_name := ImageIDToRBDID image.(Meta).(ID) |} in
  (outcome (run h p w0) = Returned (true, None) →
   ∃ snapshot,
     snapshot.(SnapStatus).(SnapState) = SnapshotStatePopulated
     ∧ trace (run h p w0)
       = [Ev (SnapshotsGet ref) (Some snapshot, None);
          Ev (ConnOpenIOContext r.(pool)) None;
          Ev (CloneImage r.(pool) (SnapshotIDToRBDID snapshot.(SnapMeta).(ID))
                ImageSnapshotVersion ioCtx (ImageIDToRBDID image.(Meta).(ID)) opts)
             None;
          Ev (OpenImage ioCtx (ImageIDToRBDID image.(Meta).(ID)) librbd.NoSnapshot)
             None;
          Ev (ImageResize img (OffBytes image.(Spec).(Size))) None;
          Ev (ImageClose img) None;
          Ev (IOContextDestroy r.(pool)) tt])
  ∧ (outcome (run handle p w) = Returned (true, None) →
     (∃ snapshot parent_size,
        w.(w_snapshots) !! ref = Some snapshot
        ∧ w.(w_volumes) !! SnapshotIDToRBDID snapshot.(SnapMeta).(ID)
          = Some parent_size)
     ∧ (world (run handle p w)).(w_volumes) !! ImageIDToRBDID image.(Meta).(ID)
       = Some (OffBytes image.(Spec).(Size))).
Proof.
  cbn zeta. split.
  - intros Ho. pose proof (run_exec h (createImageFromSnapshot r ioCtx image ref opts) w0) as Hx.
    rewrite Ho in Hx. by apply (createImageFromSnapshot_success h) in Hx.
  - unfold createImageFromSnapshot. cbn.
    destruct (w_snapshots w !! ref) as [s|] eqn:Hs; cbn; [|done].
    destruct (negb _); cbn; [done|].
    destruct (w_conn_down w); cbn; [done|].
    destruct (w_volumes w !! SnapshotIDToRBDID _) as [size|] eqn:Hp; cbn; [|done].
    destruct (w_volumes w !! ImageIDToRBDID _) as [?|] eqn:Hc; cbn; [done|].
    rewrite lookup_insert_eq. cbn. rewrite lookup_insert_eq. cbn.
    intros _. split; [by eexists _, _|]. by rewrite lookup_insert_eq.
Qed.

(** What is true of the clone step when the snapshot is there but not
    Populated: not ready, no error, and the lookup is its only call. *)
Lemma createImageFromSnapshot_not_populated {W : Type} (h : Handler W)
    (w w1 : W) ioCtx image ref opts snapshot :
  h _ (SnapshotsGet ref) w = ((Some snapshot, None), w1) →
  snapshot.(SnapStatus).(SnapState) ≠ SnapshotStatePopulated →
  run h (createImageFromSnapshot r ioCtx image ref opts) w
  = (Returned (false, None), w1, [Ev (SnapshotsGet ref) (Some snapshot, None)]).
Proof.
  intros Hg Hs. unfold createImageFromSnapshot. cbn. rewrite Hg. cbn.
  apply String.eqb_neq in Hs. by rewrite Hs.
Qed.

(** And when the store answers "not found" with the nil pointer, as a Go
    store does: the log call dereferences it. *)
Lemma createImageFromSnapshot_not_found_nil {W : Type} (h : Handler W)
    (w w1 : W) ioCtx image ref opts err :
  h _ (SnapshotsGet ref) w = ((None, err), w1) →
  errors.Is err store.ErrNotFound = true →
  outcome (run h (createImageFromSnapshot r ioCtx image ref opts) w)
  = Panicked "nil pointer dereference: snapshot.ID".
Proof.
  intros Hg He. unfold createImageFromSnapshot. cbn. rewrite Hg. cbn.
  destruct err as [e|]; [|done]. by rewrite He.
Qed.

End Clone.

(** ** Racing creators of a snapshot *)

Section CreateConflict.

Context `{Externals} {W : Type} (h : Handler W) (r : ImageReconciler).

Lemma reconcileSnapshot_create_failure img t o e :
  exec (reconcileSnapshot img) t o →
  e ∈ omap create_failure t →
  o = Returned (img, Some (Wrapf "failed to create snapshot" e))
  ∧ omap updated_image t = [].
Proof.
  unfold reconcileSnapshot, recordSnapshotRef. intros Hx.
  exec_steps Hx; cbn.
  all: rewrite ?list_elem_of_singleton; try (intros Hin; by apply not_elem_of_nil in Hin).
  all: by intros ->.
Qed.

(** C2, as the code has it.  A [Create] that answers with an error, the
    "already exists" of a lost race included, fails the snapshot
    reconciliation: the error is returned wrapped, the image is left as it
    was and nothing is written to the image store.  A reconciliation
    whose lookup finds the snapshot creates none and records the ID of
    the one found: that is how the loser converges, on its retry. *)
Theorem snapshot_create_conflict (w : W) (img : Image) :
  let res := run h (reconcileSnapshot img) w in
  (∀ e, e ∈ omap create_failure (trace res) →
     outcome res = Returned (img, Some (Wrapf "failed to create snapshot" e))
     ∧ omap updated_image (trace res) = [])
  ∧ (∀ snap, snap ∈ omap found_snapshot (trace res) →
       forallb (λ e, negb (snapshot_create e)) (trace res) = true
       ∧ ∃ err, outcome res
                = Returned (set_SnapshotRef img (Some snap.(SnapMeta).(ID)), err)).
Proof.
  cbn zeta. split.
  - intros e. eapply reconcileSnapshot_create_failure, run_exec.
  - intros snap. eapply reconcileSnapshot_found, run_exec.
Qed.

End CreateConflict.

(** ** Calls a program can make *)

Lemma emits_Ret {A : Type} (P : Event → Prop) (a : A) : emits P (Ret a).
Proof. intros t o [-> _]. constructor. Qed.

Lemma emits_Panic {A : Type} (P : Event → Prop) (m : string) :
  emits P (@Panic A m).
Proof. intros t o [-> _]. constructor. Qed.

Lemma emits_Do {A R : Type} (P : Event → Prop) (c : Call R) (k : R → Prog A) :
  (∀ r, P (Ev c r)) → (∀ r, emits P (k r)) → emits P (Do c k).
Proof.
  intros Hc Hk t o (r & t' & -> & Hx). constructor; [apply Hc|].
  by eapply Hk.
Qed.

Lemma emits_bind {A B : Type} (P : Event → Prop) (p : Prog A) (f : A → Prog B) :
  emits P p → (∀ a, emits P (f a)) → emits P (bind p f).
Proof.
  intros Hp Hf t o Hx.
  apply exec_bind_inv in Hx as [(a & t1 & t2 & H1 & H2 & ->)|(m & H1 & _)].
  - apply Forall_app. split; [by eapply Hp|by eapply Hf].
  - by eapply Hp.
Qed.

Lemma emits_defer {A : Type} (P : Event → Prop) (c : Call unit) (body : Prog A) :
  P (Ev c tt) → emits P body → emits P (defer (call c) body).
Proof.
  intros Hc Hb t o Hx. apply exec_defer_inv in Hx as (t1 & [] & H1 & ->).
  apply Forall_app. split; [by eapply Hb|]. by repeat constructor.
Qed.

(** Deciding [emits] along the shape of a program; [loop] settles the
    loops. *)
Ltac emits_go loop :=
  repeat first
    [ loop
    | lazymatch goal with
      | |- emits _ (Ret _) => apply emits_Ret
      | |- emits _ (Panic _) => apply emits_Panic
      | |- emits _ (Do _ _) => apply emits_Do; [intros ?; cbn; try done | intros ?]
      | |- emits _ (defer (call _) _) => apply emits_defer; [cbn; try done |]
      | |- emits _ (match ?x with _ => _ end) => destruct x eqn:?
      | |- emits _ (if ?b then _ else _) => destruct b eqn:?
      | |- emits _ (mbind _ _) => apply emits_bind; [| intros ?]
      | |- emits _ (bind _ _) => apply emits_bind; [| intros ?]
      | |- emits _ (call _) => unfold call
      | |- emits _ (mret _) => apply emits_Ret
      end ].

Ltac unfold_reconciler :=
  unfold reconcileImage, ensureFinalizer, deleteImage, reconcileSnapshot,
    recordSnapshotRef, provision, createImageFromSnapshot, createEmptyImage,
    setImageLimits, fetchAuth.


Ltac loop_range lem :=
  lazymatch goal with
  | |- emits _ (setImageLimits_range _ _) => apply lem
  end.

(** ** Construction *)

(** A check of [NewImageReconciler] failed: not everything is given. *)
Ltac not_all_given Hg :=
  destruct Hg as (Hc & Hr & Hi & Hs & Hie & Hse & Hp & Hm & Hcl);
  first [ by destruct Hc as [? [=]] | by destruct Hr as [? [=]]
        | by destruct Hi as [? [=]] | by destruct Hs as [? [=]]
        | by destruct Hie as [? [=]] | by destruct Hse as [? [=]]
        | done ].

Ltac missing_dependency :=
  split; [split; [intros Hg; not_all_given Hg | intros [=]]|];
  split; [split; [intros _; by eexists | intros _ Hg; not_all_given Hg]|];
  split; [first [done | intros [=]]|];
  intros Hc Hr Hi Hs Hie Hse Hp;
  first [ done
        | by destruct Hc as [? [=]] | by destruct Hr as [? [=]]
        | by destruct Hi as [? [=]] | by destruct Hs as [? [=]]
        | by destruct Hie as [? [=]] | by destruct Hse as [? [=]] ].

(** [NewImageReconciler] returns a reconciler exactly when every
    dependency is given and the pool, the monitors and the client are
    not empty; the reconciler then carries the three strings of the
    options.  Otherwise it returns no reconciler and an error; the checks
    run in the order of the source, so a missing connection is what is
    reported whatever else is missing, and an empty pool before empty
    monitors or an empty client. *)
Theorem NewImageReconciler_complete
    {Conn Registry Images Snapshots ImageEvents SnapshotEvents : Type}
    (conn : option Conn) (registry : option Registry)
    (images : option Images) (snapshots : option Snapshots)
    (imageEvents : option ImageEvents) (snapshotEvents : option SnapshotEvents)
    (opts : ImageReconcilerOptions.t) :
  let res := NewImageReconciler conn registry images snapshots imageEvents
               snapshotEvents opts in
  let given :=
    is_Some conn ∧ is_Some registry ∧ is_Some images ∧ is_Some snapshots
    ∧ is_Some imageEvents ∧ is_Some snapshotEvents
    ∧ opts.(ImageReconcilerOptions.Pool) ≠ EmptyString
    ∧ opts.(ImageReconcilerOptions.Monitors) ≠ EmptyString
    ∧ opts.(ImageReconcilerOptions.Client) ≠ EmptyString in
  (given ↔
     res = (Some {| monitors := opts.(ImageReconcilerOptions.Monitors);
                    client := opts.(ImageReconcilerOptions.Client);
                    pool := opts.(ImageReconcilerOptions.Pool) |}, None))
  ∧ (¬ given ↔ ∃ msg, res = (None, Some (Errorf msg)))
  ∧ (conn = None → res = (None, Some (Errorf "must specify conn")))
  ∧ (is_Some conn → is_Some registry → is_Some images → is_Some snapshots →
     is_Some imageEvents → is_Some snapshotEvents →
     opts.(ImageReconcilerOptions.Pool) = EmptyString →
     res = (None, Some (Errorf "must specify pool"))).
Proof.
  cbn zeta. unfold NewImageReconciler.
  destruct conn; [|missing_dependency].
  destruct registry; [|missing_dependency].
  destruct images; [|missing_dependency].
  destruct snapshots; [|missing_dependency].
  destruct imageEvents; [|missing_dependency].
  destruct snapshotEvents; [|missing_dependency].
  destruct (String.eqb_spec (ImageReconcilerOptions.Pool opts) "");
    [missing_dependency|].
  destruct (String.eqb_spec (ImageReconcilerOptions.Monitors opts) "");
    [missing_dependency|].
  destruct (String.eqb_spec (ImageReconcilerOptions.Client opts) "");
    [missing_dependency|].
  repeat split; try done; eauto.
  - intros Hn. exfalso. apply Hn. repeat split; eauto.
  - intros [msg [=]].
Qed.

Lemma emits_exec {A : Type} (P : Event → Prop) (p : Prog A) t o :
  exec p t o → emits P p → Forall P t.
Proof. intros Hx Hp. by eapply Hp. Qed.

Lemma preceded_seen need by_ t : preceded need by_ true t = true.
Proof. induction t as [|e t IH]; [done|]. cbn. by rewrite orb_true_r. Qed.

Lemma preceded_app need by_ s t1 t2 :
  preceded need by_ s (t1 ++ t2)
  = preceded need by_ s t1 && preceded need by_ (s || existsb by_ t1) t2.
Proof.
  revert s. induction t1 as [|e t1 IH]; intros s; cbn.
  - by rewrite orb_false_r.
  - rewrite IH, orb_assoc, andb_assoc. done.
Qed.

Lemma preceded_quiet need by_ s t :
  Forall (λ e, need e = false) t → preceded need by_ s t = true.
Proof.
  intros Hq. revert s. induction Hq as [|e t He Ht IH]; intros s; cbn; [done|].
  rewrite He. cbn. apply IH.
Qed.

Lemma preceded_sound need by_ s t :
  preceded need by_ s t = true →
  ∀ pre e post, t = pre ++ e :: post → need e = true →
  s || existsb by_ pre = true.
Proof.
  revert s. induction t as [|e' t IH]; intros s Hg pre e post Heq Hm.
  - by destruct pre.
  - cbn in Hg. apply andb_true_iff in Hg as [Hh Hg].
    destruct pre as [|p pre]; cbn in Heq; simplify_eq.
    + rewrite Hm in Hh. cbn in *. by rewrite Hh.
    + cbn. rewrite orb_assoc. by eapply IH.
Qed.

(** The one event of its kind in a trace is found where it is. *)
Lemma only_one (f : Event → bool) (l1 l2 pre post : list Event) (x e : Event) :
  l1 ++ x :: l2 = pre ++ e :: post →
  Forall (λ e', f e' = false) l1 →
  Forall (λ e', f e' = false) l2 →
  f e = true →
  pre = l1 ∧ e = x ∧ post = l2.
Proof.
  revert pre. induction l1 as [|y l1 IH]; intros pre Heq H1 H2 He.
  - destruct pre as [|p pre]; cbn in Heq.
    + by injection Heq as -> ->.
    + injection Heq as -> ->.
      rewrite Forall_app, Forall_cons in H2. destruct H2 as (_ & H2 & _).
      congruence.
  - apply Forall_cons in H1 as [Hy H1].
    destruct pre as [|p pre]; cbn in Heq.
    + injection Heq as -> _. congruence.
    + injection Heq as -> Heq.
      destruct (IH _ Heq H1 H2 He) as (-> & -> & ->). done.
Qed.

Lemma none_of (f : Event → bool) (pre post : list Event) (e : Event) :
  Forall (λ e', f e' = false) (pre ++ e :: post) → f e = true → False.
Proof.
  rewrite Forall_app, Forall_cons. intros (_ & He & _). congruence.
Qed.

(** ** Fetching the image *)

Section Fetch.
Context `{Externals} {W : Type} (h : Handler W) (r : ImageReconciler).

(** When the fetch answers with an error, [reconcileImage] makes no
    further call but the release of the I/O context: "not found" is
    success (also with the nil pointer next to it, which is not read
    here), any other error is returned wrapped. *)
Theorem reconcileImage_fetch_error (w w1 w2 : W) (id : string)
    (obj : option Image) (e : error) :
  h _ (ConnOpenIOContext r.(pool)) w = (None, w1) →
  h _ (ImagesGet id) w1 = ((obj, Some e), w2) →
  run h (reconcileImage r id) w
  = (Returned (if errors.Is (Some e) store.ErrNotFound then None
               else Some (Wrapf "failed to fetch image from store" e)),
     (h _ (IOContextDestroy r.(pool)) w2).2,
     [Ev (ConnOpenIOContext r.(pool)) None;
      Ev (ImagesGet id) (obj, Some e);
      Ev (IOContextDestroy r.(pool)) tt]).
Proof.
  intros Ho Hg. unfold reconcileImage. cbn. rewrite Ho. cbn. rewrite Hg. cbn.
  destruct (errors.Is_chain e store.ErrNotFound); cbn.
  all: by destruct (h _ (IOContextDestroy (pool r)) w2) as [[] w3].
Qed.

Lemma range_no_removal img limits :
  emits (λ e, removes_volume e = false) (setImageLimits_range img limits).
Proof.
  induction limits as [|[limit value] limits IH]; cbn [setImageLimits_range].
  - apply emits_Ret.
  - emits_go fail. exact IH.
Qed.

Lemma reconcileImage_removal_preceded id t o :
  exec (reconcileImage r id) t o →
  preceded removes_volume fetched_for_deletion false t = true.
Proof.
  unfold reconcileImage. intros Hx.
  exec_steps Hx; try done.
  - (* the deletion path *)
    cbn [preceded removes_volume fetched_for_deletion negb orb andb].
    rewrite Heqb. cbn [andb].
    destruct (slices.Contains _ _) eqn:Hf; [apply preceded_seen|].
    apply preceded_quiet. apply Forall_app. split; [|by repeat constructor].
    eapply (emits_exec _ _ _ _ Hx).
    unfold deleteImage. rewrite Hf. cbn [negb]. emits_go fail.
  - (* a live image *)
    apply preceded_quiet. repeat (constructor; [done|]).
    apply Forall_app. split; [|by repeat constructor].
    eapply (emits_exec _ _ _ _ Hx).
    unfold_reconciler. emits_go ltac:(idtac; loop_range range_no_removal).
Qed.

(** A backend volume is removed only for an image that the store shows
    as marked deleted and carrying the finalizer: every removal of a run
    of [reconcileImage] comes after such a fetch. *)
Theorem removal_only_for_deleted (w : W) (id : string)
    (pre : list Event) (e : Event) (post : list Event) :
  trace (run h (reconcileImage r id) w) = pre ++ e :: post →
  removes_volume e = true →
  existsb fetched_for_deletion pre = true.
Proof.
  intros Ht Hm.
  pose proof (reconcileImage_removal_preceded id _ _ (run_exec h (reconcileImage r id) w)) as Hg.
  exact (preceded_sound _ _ false _ Hg pre e post Ht Hm).
Qed.
End Fetch.

Lemma existsb_quiet (f : Event → bool) (t : list Event) :
  Forall (λ e, f e = false) t → existsb f t = false.
Proof. induction 1 as [|e t He Ht IH]; cbn; [done|]. by rewrite He, IH. Qed.

Section Deleted.
Context `{Externals} {W : Type} (h : Handler W) (r : ImageReconciler).

Lemma range_no_fetch img limits :
  emits (λ e, fetched_deleted e = false) (setImageLimits_range img limits).
Proof.
  induction limits as [|[limit value] limits IH]; cbn [setImageLimits_range].
  - apply emits_Ret.
  - emits_go fail. exact IH.
Qed.

Lemma reconcileImage_deleted id t o :
  exec (reconcileImage r id) t o →
  existsb fetched_deleted t = true →
  Forall (λ e, deletion_call e = true) t
  ∧ ∃ err, o = Returned err
           ∧ from_option (λ e, ∃ e', e = Wrapf "failed to delete image" e') True err.
Proof.
  unfold reconcileImage. intros Hx Hd.
  exec_steps Hx.
  all: cbn [existsb fetched_deleted app orb] in Hd; try discriminate Hd.
  all: try (repeat case_match; discriminate Hd).
  - (* the deletion path *)
    clear Hd.
    apply exec_bind_inv in Hx as [(a & t1 & t2 & H1 & H2 & ->)|(m & H1 & ->)].
    + assert (Forall (λ e, deletion_call e = true) t1) as Ht1.
      { eapply (emits_exec _ _ _ _ H1). unfold deleteImage. emits_go fail. }
      destruct a as [image' [e|]]; exec_steps H2.
      all: split; [|eexists; split; [reflexivity|]; cbn; eauto].
      all: repeat (constructor; [done|]).
      all: rewrite app_nil_r; apply Forall_app; split; [done|by repeat constructor].
    + exfalso. revert H1. unfold deleteImage. intros H1. exec_steps H1.
  - (* Available: the fetch did not show a deleted image *)
    rewrite Heqb in Hd. discriminate Hd.
  - (* a live image: no other fetch in the run *)
    rewrite Heqb, existsb_app in Hd. cbn in Hd. rewrite orb_false_r in Hd.
    rewrite existsb_quiet in Hd; [discriminate Hd|].
    eapply (emits_exec _ _ _ _ Hx).
    unfold_reconciler. emits_go ltac:(idtac; loop_range range_no_fetch).
Qed.

(** An image the store shows as marked deleted is never provisioned:
    whatever the deletion path comes to, the calls of the run are the
    opening of the I/O context, the fetch, at most a removal and an
    update, and the release of the context; the run returns success or
    the error of the deletion path, wrapped. *)
Theorem deleted_image_not_provisioned (w : W) (id : string) :
  let res := run h (reconcileImage r id) w in
  existsb fetched_deleted (trace res) = true →
  Forall (λ e, deletion_call e = true) (trace res)
  ∧ ∃ err, outcome res = Returned err
           ∧ from_option (λ e, ∃ e', e = Wrapf "failed to delete image" e') True err.
Proof. cbn zeta. apply (reconcileImage_deleted id), run_exec. Qed.
End Deleted.

(** ** The worker *)

Section Worker.
Context `{Externals} {W : Type} (h : Handler W) (r : ImageReconciler).

Lemma range_no_queue img limits :
  emits (λ e, queue_call e = false) (setImageLimits_range img limits).
Proof.
  induction limits as [|[limit value] limits IH]; cbn [setImageLimits_range].
  - apply emits_Ret.
  - emits_go fail. exact IH.
Qed.

(** The reconciliation of an image never calls the queue. *)
Lemma reconcileImage_no_queue id : emits (λ e, queue_call e = false) (reconcileImage r id).
Proof. unfold_reconciler. emits_go ltac:(idtac; loop_range range_no_queue). Qed.

Lemma processNextWorkItem_exec t o :
  exec (processNextWorkItem r) t o →
  ∃ item shutdown,
    if shutdown : bool
    then t = [Ev QueueGet (item, true)] ∧ o = Returned false
    else ∃ t' o',
        exec (reconcileImage r item) t' o'
        ∧ match o' with
          | Returned (Some _) =>
              o = Returned true
              ∧ t = Ev QueueGet (item, false)
                    :: t' ++ [Ev (QueueAddRateLimited item) tt;
                              Ev (QueueDone item) tt]
          | Returned None =>
              o = Returned true
              ∧ t = Ev QueueGet (item, false)
                    :: t' ++ [Ev (QueueForget item) tt;
                              Ev (QueueDone item) tt]
          | Panicked m =>
              o = Panicked m
              ∧ t = Ev QueueGet (item, false) :: t' ++ [Ev (QueueDone item) tt]
          end.
Proof.
  unfold processNextWorkItem. intros Hx.
  exec_norm Hx. exec_head Hx. destruct r0 as [item shutdown].
  exists item, shutdown. exec_norm Hx. exec_head Hx.
  - exec_head Hx. done.
  - exec_head Hx. destruct u.
    apply exec_bind_inv in Hx as [(a & t1 & t2 & H1 & H2 & ->)|(m & H1 & ->)].
    + exists t1, (Returned a). split; [done|].
      destruct a as [e|]; exec_steps H2.
      all: repeat match goal with u : () |- _ => destruct u end.
      all: split; [done|]; by rewrite <- app_assoc.
    + eexists _, (Panicked m). split; [eassumption|done].
Qed.

(** The worker requeues with backoff exactly when the reconciliation
    returned an error and forgets the key exactly when it returned
    success.  After a [Get] that hands out an item, its calls are the
    calls of one reconciliation of that item, which never touch the
    queue, then [AddRateLimited] or [Forget], then [Done]; it reports
    that there is more to do.  When the reconciliation panics only
    [Done] follows.  After a [Get] that signals shutdown it makes no
    call and reports that the loop is over. *)
Theorem processNextWorkItem_requeues (w : W) :
  let res := run h (processNextWorkItem r) w in
  ∃ item shutdown,
    if shutdown : bool
    then trace res = [Ev QueueGet (item, true)] ∧ outcome res = Returned false
    else ∃ t' o',
        exec (reconcileImage r item) t' o'
        ∧ Forall (λ e, queue_call e = false) t'
        ∧ match o' with
          | Returned (Some _) =>
              outcome res = Returned true
              ∧ trace res = Ev QueueGet (item, false)
                            :: t' ++ [Ev (QueueAddRateLimited item) tt;
                                      Ev (QueueDone item) tt]
          | Returned None =>
              outcome res = Returned true
              ∧ trace res = Ev QueueGet (item, false)
                            :: t' ++ [Ev (QueueForget item) tt;
                                      Ev (QueueDone item) tt]
          | Panicked m =>
              outcome res = Panicked m
              ∧ trace res = Ev QueueGet (item, false)
                            :: t' ++ [Ev (QueueDone item) tt]
          end.
Proof.
  cbn zeta.
  destruct (processNextWorkItem_exec _ _ (run_exec h (processNextWorkItem r) w))
    as (item & shutdown & Hs).
  exists item, shutdown. destruct shutdown; [done|].
  destruct Hs as (t' & o' & Hx & Ho). exists t', o'.
  split; [done|]. split; [|done].
  eapply emits_exec; [exact Hx|apply reconcileImage_no_queue].
Qed.

Lemma ends_at_shutdown_quiet (t l : list Event) :
  Forall (λ e, queue_call e = false) t →
  ends_at_shutdown l = true → ends_at_shutdown (t ++ l) = true.
Proof.
  induction 1 as [|e t He Ht IHt]; intros Hl; [done|].
  cbn [app ends_at_shutdown].
  assert (shutdown_signal e = false) as ->; [|by apply IHt].
  destruct e as [R c a]. revert He. by destruct c.
Qed.

Lemma worker_ends_at_shutdown n t o :
  exec (worker r n) t o → ends_at_shutdown t = true.
Proof.
  revert t. induction n as [|n IH]; intros t Hx.
  - cbn in Hx. by destruct Hx as [-> _].
  - cbn [worker] in Hx.
    apply exec_bind_inv in Hx as [(more & t1 & t2 & H1 & H2 & ->)|(m & H1 & ->)].
    + apply processNextWorkItem_exec in H1 as (item & shutdown & Hs).
      destruct shutdown.
      * destruct Hs as [-> [= ->]]. cbn in H2. destruct H2 as [-> _]. done.
      * destruct Hs as (t' & o' & Hx & Ho).
        pose proof (emits_exec _ _ _ _ Hx (reconcileImage_no_queue item)) as Hq.
        pose proof (λ l, ends_at_shutdown_quiet _ l Hq) as Hpre.
        destruct o' as [[e|]|m]; destruct Ho as [[= ->] ->].
        all: cbn [ends_at_shutdown shutdown_signal snd app].
        all: rewrite <- app_assoc; apply Hpre; cbn.
        all: by apply IH.
    + apply processNextWorkItem_exec in H1 as (item & shutdown & Hs).
      destruct shutdown; [by destruct Hs as [_ [=]]|].
      destruct Hs as (t' & o' & Hx & Ho).
      pose proof (emits_exec _ _ _ _ Hx (reconcileImage_no_queue item)) as Hq.
      pose proof (λ l, ends_at_shutdown_quiet _ l Hq) as Hpre.
      destruct o' as [[e|]|m']; destruct Ho as [[=] ->].
      cbn [ends_at_shutdown shutdown_signal snd app]. by apply Hpre.
Qed.

Lemma ends_at_shutdown_sound t :
  ends_at_shutdown t = true →
  ∀ pre e post, t = pre ++ e :: post → shutdown_signal e = true → post = [].
Proof.
  induction t as [|e' t IH]; intros He pre e post Heq Hs.
  - by destruct pre.
  - cbn in He. destruct pre as [|p pre]; cbn in Heq; simplify_eq.
    + rewrite Hs in He. by apply bool_decide_eq_true in He.
    + destruct (shutdown_signal p).
      * apply bool_decide_eq_true in He. by destruct pre.
      * by eapply IH.
Qed.

(** A worker stops at shutdown: once a [Get] of the queue signals
    shutdown, the loop makes no further call, however many rounds it had
    left. *)
Theorem worker_stops_at_shutdown (w : W) (n : nat)
    (pre : list Event) (e : Event) (post : list Event) :
  trace (run h (worker r n) w) = pre ++ e :: post →
  shutdown_signal e = true →
  post = [].
Proof.
  intros Ht Hs.
  pose proof (worker_ends_at_shutdown n _ _ (run_exec h (worker r n) w)) as He.
  exact (ends_at_shutdown_sound _ He pre e post Ht Hs).
Qed.
End Worker.

Lemma emits_bind_post {A B : Type} (P : Event → Prop) (Q : A → Prop)
    (p : Prog A) (f : A → Prog B) :
  emits P p → returns Q p → (∀ a, Q a → emits P (f a)) → emits P (bind p f).
Proof.
  intros Hp Hq Hf t o Hx.
  apply exec_bind_inv in Hx as [(a & t1 & t2 & H1 & H2 & ->)|(m & H1 & _)].
  - apply Forall_app. split; [by eapply Hp|]. eapply Hf; [|done]. by eapply Hq.
  - by eapply Hp.
Qed.

Lemma emits_impl {A : Type} (P P' : Event → Prop) (p : Prog A) :
  (∀ e, P e → P' e) → emits P p → emits P' p.
Proof. intros HP Hp t o Hx. eapply Forall_impl; [by eapply Hp|done]. Qed.

(** ** What a reconciliation leaves alone *)

Section Frame.
Context `{Externals} {W : Type} (h : Handler W) (r : ImageReconciler).

Lemma same_identity_refl img : same_identity img img.
Proof. by repeat split. Qed.

Lemma about_transfer img0 img e :
  same_identity img0 img → about img e → about img0 e.
Proof.
  intros (Hi & Hl & Hd & Hs & Hz & Hm) [Hu Hv]. split.
  - destruct (updated_image e) as [b|]; [|done]. cbn in *.
    destruct Hu as (?&?&?&?&?&?). repeat split; congruence.
  - destruct (volume_target e) as [n|]; [|done]. cbn in *. congruence.
Qed.

Lemma range_about img0 limits :
  emits (about img0)
    (setImageLimits_range
       {| rbd_ioctx := r.(pool); rbd_name := ImageIDToRBDID img0.(Meta).(ID) |}
       limits).
Proof.
  induction limits as [|[limit value] limits IH]; cbn [setImageLimits_range].
  - apply emits_Ret.
  - emits_go fail. exact IH.
Qed.

Lemma deleteImage_about img : emits (about img) (deleteImage r.(pool) img).
Proof. unfold deleteImage. emits_go fail. Qed.

Lemma ensureFinalizer_about img :
  emits (about img) (ensureFinalizer img)
  ∧ returns (λ '(img', _), same_identity img img' ∧ img'.(Status) = img.(Status))
      (ensureFinalizer img).
Proof.
  split.
  - unfold ensureFinalizer. emits_go fail.
  - intros t a Hx. unfold ensureFinalizer in Hx. exec_steps Hx; done.
Qed.

Lemma reconcileSnapshot_about img :
  emits (about img) (reconcileSnapshot img)
  ∧ returns (λ '(img', _), same_identity img img' ∧ img'.(Status) = img.(Status))
      (reconcileSnapshot img).
Proof.
  split.
  - unfold reconcileSnapshot, recordSnapshotRef. emits_go fail.
  - intros t a Hx. unfold reconcileSnapshot, recordSnapshotRef in Hx.
    exec_steps Hx; done.
Qed.

Lemma provision_about img : emits (about img) (provision r r.(pool) img).
Proof.
  unfold provision, createImageFromSnapshot, createEmptyImage, setImageLimits,
    fetchAuth.
  emits_go ltac:(idtac; loop_range range_about).
Qed.

Lemma reconcileImage_about id t o img0 :
  exec (reconcileImage r id) t o → fetched t = Some img0 → Forall (about img0) t.
Proof.
  unfold reconcileImage. intros Hx Hf.
  exec_steps Hx; cbn in Hf; try discriminate Hf.
  all: injection Hf as <-.
  all: repeat (constructor; [done|]).
  all: try (apply Forall_app; split; [|by repeat constructor]).
  all: try done.
  - eapply (emits_exec _ _ _ _ Hx).
    apply emits_bind; [apply deleteImage_about|]. intros [? [?|]]; emits_go fail.
  - eapply (emits_exec _ _ _ _ Hx).
    eapply emits_bind_post;
      [apply ensureFinalizer_about|apply ensureFinalizer_about|].
    intros [img1 [e|]] [Hid1 _]; [emits_go fail|].
    eapply emits_bind_post;
      [eapply emits_impl; [apply (λ e, about_transfer _ _ e Hid1)|apply reconcileSnapshot_about]
      |apply reconcileSnapshot_about|].
    intros [img2 [e|]] [Hid2 _]; [emits_go fail|].
    assert (same_identity i img2) as Hid.
    { destruct Hid1 as (?&?&?&?&?&?), Hid2 as (?&?&?&?&?&?).
      repeat split; congruence. }
    emits_go ltac:(idtac;
      lazymatch goal with
      | |- emits _ (provision _ _ _) =>
          eapply emits_impl; [apply (λ e, about_transfer _ _ e Hid)|apply provision_about]
      end).
Qed.

(** A reconciliation works on one image and one volume.  Every image it
    hands to the store for an update has the ID, the labels, the deletion
    time, the source, the size and the limits of the image it fetched,
    and every backend volume call of the run works on the volume named
    after that ID (for a clone, as the child). *)
Theorem reconcileImage_one_image (w : W) (id : string) (img0 : Image) :
  let res := run h (reconcileImage r id) w in
  fetched (trace res) = Some img0 →
  Forall (λ e,
            from_option (same_identity img0) True (updated_image e)
            ∧ from_option (λ name, name = ImageIDToRBDID img0.(Meta).(ID)) True
                (volume_target e))
    (trace res).
Proof. cbn zeta. intros Hf. eapply reconcileImage_about; [apply run_exec|done]. Qed.
End Frame.

(** ** Limits *)

Section Limits.
Context `{Externals} {W : Type} (h : Handler W).

Lemma setImageLimits_range_done img limits t :
  exec (setImageLimits_range img limits) t (Returned None) →
  t = limit_set img <$> limits.
Proof.
  revert t. induction limits as [|[limit value] limits IH]; intros t Hx.
  - cbn in Hx. by destruct Hx as [-> _].
  - cbn [setImageLimits_range] in Hx. exec_steps Hx.
    cbn. f_equal. by apply IH.
Qed.

Lemma setImageLimits_range_failed img limits t e :
  exec (setImageLimits_range img limits) t (Returned (Some e)) →
  ∃ done_ entry err closeErr,
    done_ ++ [entry] `prefix_of` limits
    ∧ t = (limit_set img <$> done_)
          ++ [Ev (ImageSetMetadata img (LimitMetadataPrefix +:+ entry.1) (pretty entry.2))
                (Some err);
              Ev (ImageClose img) closeErr].
Proof.
  revert t. induction limits as [|[limit value] limits IH]; intros t Hx.
  - cbn in Hx. by destruct Hx as [_ [=]].
  - cbn [setImageLimits_range] in Hx. exec_steps Hx.
    + exists [], (limit, value), e0, (Some e1). split; [|done].
      by apply prefix_cons, prefix_nil.
    + exists [], (limit, value), e0, None. split; [|done].
      by apply prefix_cons, prefix_nil.
    + apply IH in Hx as (done_ & entry & err & closeErr & Hp & ->).
      exists ((limit, value) :: done_), entry, err, closeErr. split; [|done].
      by apply prefix_cons.
Qed.

(** When [setImageLimits] succeeds it has opened the volume of the
    image, set every limit of the spec as metadata of that volume, each
    once and without error, under the key ["conf_"] followed by the name
    of the limit and with the value in decimal, and closed the volume:
    these are all its calls.  Go ranges over the map of limits in no
    fixed order, the model in the order of [map_to_list]; the statement
    holds of either. *)
Theorem setImageLimits_sets_every_limit (w : W) (ioCtx : IOContext) (image : Image) :
  let res := run h (setImageLimits ioCtx image) w in
  let img := {| rbd_ioctx := ioCtx;
                rbd_name := ImageIDToRBDID image.(Meta).(ID) |} in
  outcome res = Returned None →
  (∃ sets,
     sets ≡ₚ limit_set img <$> map_to_list image.(Spec).(Limits)
     ∧ trace res
       = Ev (OpenImage ioCtx (ImageIDToRBDID image.(Meta).(ID)) librbd.NoSnapshot) None
         :: sets ++ [Ev (ImageClose img) None])
  ∧ ∀ limit value,
      image.(Spec).(Limits) !! limit = Some value →
      Ev (ImageSetMetadata img ("conf_" +:+ limit) (pretty value)) None ∈ trace res.
Proof.
  cbn zeta. intros Ho.
  pose proof (run_exec h (setImageLimits ioCtx image) w) as Hx.
  rewrite Ho in Hx. revert Hx.
  generalize (trace (run h (setImageLimits ioCtx image) w)). intros t Hx.
  assert (t = Ev (OpenImage ioCtx (ImageIDToRBDID image.(Meta).(ID)) librbd.NoSnapshot) None
              :: (limit_set {| rbd_ioctx := ioCtx;
                               rbd_name := ImageIDToRBDID image.(Meta).(ID) |}
                    <$> map_to_list image.(Spec).(Limits))
              ++ [Ev (ImageClose {| rbd_ioctx := ioCtx;
                                    rbd_name := ImageIDToRBDID image.(Meta).(ID) |}) None])
    as ->.
  { unfold setImageLimits in Hx. exec_steps Hx.
    apply exec_bind_inv in Hx as [(a & t1 & t2 & H1 & H2 & ->)|(m & H1 & [=])].
    destruct a as [e|]; exec_steps H2.
    apply setImageLimits_range_done in H1 as ->. done. }
  split; [by eexists|]. intros limit value Hl.
  apply elem_of_cons. right. apply elem_of_app. left.
  apply (list_elem_of_fmap_2 (limit_set _) _ (limit, value)).
  by apply elem_of_map_to_list.
Qed.

Lemma setImageLimits_range_returns img limits t o :
  exec (setImageLimits_range img limits) t o → ∃ err, o = Returned err.
Proof.
  revert t. induction limits as [|[limit value] limits IH]; intros t Hx.
  - cbn in Hx. destruct Hx as [_ ->]. by eexists.
  - cbn [setImageLimits_range] in Hx. exec_steps Hx; try by eexists.
    by eapply IH.
Qed.

Lemma limit_set_quiet img limits :
  Forall (λ e, metadata_failed e = false) (limit_set img <$> limits).
Proof. apply Forall_fmap, Forall_forall. by intros [limit value] _. Qed.

(** The first limit that cannot be set ends [setImageLimits]: no limit
    before it failed, the volume is closed, no further limit is tried,
    and an error is returned. *)
Theorem setImageLimits_stops_at_failure (w : W) (ioCtx : IOContext) (image : Image)
    (pre : list Event) (e : Event) (post : list Event) :
  let res := run h (setImageLimits ioCtx image) w in
  let img := {| rbd_ioctx := ioCtx;
                rbd_name := ImageIDToRBDID image.(Meta).(ID) |} in
  trace res = pre ++ e :: post →
  metadata_failed e = true →
  (∃ closeErr, post = [Ev (ImageClose img) closeErr])
  ∧ (∃ err, outcome res = Returned (Some err))
  ∧ Forall (λ e', metadata_failed e' = false) pre.
Proof.
  cbn zeta.
  pose proof (run_exec h (setImageLimits ioCtx image) w) as Hx.
  revert Hx. generalize (trace (run h (setImageLimits ioCtx image) w)).
  generalize (outcome (run h (setImageLimits ioCtx image) w)).
  intros o t Hx Ht Hm. unfold setImageLimits in Hx. exec_steps Hx.
  - destruct pre as [|? [|? ?]]; cbn in Ht; try discriminate Ht.
    injection Ht as <- _. discriminate Hm.
  - apply exec_bind_inv in Hx as [(a & t1 & t2 & H1 & H2 & ->)|(m & H1 & ->)];
      [|by apply setImageLimits_range_returns in H1 as [? [=]]].
    destruct a as [e0|].
    + cbn in H2. destruct H2 as [-> ->].
      apply setImageLimits_range_failed in H1
        as (done_ & entry & err & closeErr & _ & ->).
      rewrite app_nil_r in Ht.
      apply (only_one metadata_failed (_ :: _) [_]) in Ht as (-> & -> & ->); try done.
      * split_and!; [by eexists|by eexists|].
        apply Forall_cons. split; [done|apply limit_set_quiet].
      * apply Forall_cons. split; [done|apply limit_set_quiet].
      * by apply Forall_cons.
    + apply setImageLimits_range_done in H1 as ->.
      assert (Forall (λ e', metadata_failed e' = false) (pre ++ e :: post)) as Hq.
      { rewrite <- Ht. apply Forall_cons. split; [done|].
        apply Forall_app. split; [apply limit_set_quiet|].
        exec_steps H2; by repeat constructor. }
      rewrite Forall_app, Forall_cons in Hq. destruct Hq as (_ & Hq & _).
      congruence.
Qed.
End Limits.

(** ** Becoming Available *)

Section Available.
Context `{Externals} {W : Type} (h : Handler W) (r : ImageReconciler).

Lemma range_no_update img limits : emits no_update (setImageLimits_range img limits).
Proof.
  induction limits as [|[limit value] limits IH]; cbn [setImageLimits_range].
  - apply emits_Ret.
  - emits_go fail. exact IH.
Qed.

Lemma setImageLimits_no_update ioCtx img : emits no_update (setImageLimits ioCtx img).
Proof. unfold setImageLimits. emits_go ltac:(idtac; loop_range range_no_update). Qed.

Lemma createImageFromSnapshot_no_update ioCtx img ref opts :
  emits no_update (createImageFromSnapshot r ioCtx img ref opts).
Proof. unfold createImageFromSnapshot. emits_go fail. Qed.

Lemma createImageFromSnapshot_cloned ioCtx img ref opts t :
  exec (createImageFromSnapshot r ioCtx img ref opts) t (Returned (true, None)) →
  existsb volume_known t = true.
Proof. unfold createImageFromSnapshot. intros Hx. exec_steps Hx. done. Qed.

Lemma fetchAuth_exec t o :
  exec (fetchAuth r) t o →
  Forall no_update t
  ∧ ∃ res, o = Returned res
    ∧ (res.2 = None →
       ∃ data, t = [Ev (ConnMonCommand (auth_command r)) (data, None)]
               ∧ json_Unmarshal data = (res.1.2, None)
               ∧ res.1.1 = strings.TrimPrefix r.(client) "client.").
Proof.
  unfold fetchAuth, auth_command. intros Hx.
  destruct (json_Marshal _) as [cmd1 [e|]]; cbn [fst].
  { exec_steps Hx. split; [done|]. by eexists. }
  exec_steps Hx.
  all: (split; [by repeat constructor|]); eexists; (split; [done|]); try done.
  intros _. by exists s.
Qed.

(** What a run of the provisioning part comes to: no update of the
    image at all, or exactly one, the last call, after a volume was made
    and the key was fetched. *)
Lemma provision_exec ioCtx img t o :
  exec (provision r ioCtx img) t o →
  Forall no_update t
  ∨ ∃ pre data key wwn ans,
      t = pre ++ [Ev WwnGenerate wwn;
                  Ev (ImagesUpdate (set_Status img (available_status r img key wwn))) ans]
      ∧ Forall no_update pre
      ∧ existsb volume_known pre = true
      ∧ Ev (ConnMonCommand (auth_command r)) (data, None) ∈ pre
      ∧ json_Unmarshal data = (key, None).
Proof.
  unfold provision. intros Hx.
  exec_norm Hx. destruct Hx as (r0 & t0 & -> & Hx).
  destruct r0 as [e0|]; [exec_steps Hx; by left; repeat constructor|].
  apply exec_bind_inv in Hx as [(a & t1 & t2 & H1 & H2 & ->)|(m & H1 & ->)].
  2: { left. constructor; [done|].
       destruct (SnapshotRef _).
       - apply exec_bind_inv in H1 as [(a & t1 & t2 & H1 & H2 & ->)|(m' & H1 & _)].
         + destruct a. exec_steps H2.
         + by eapply createImageFromSnapshot_no_update.
       - unfold createEmptyImage in H1. exec_steps H1. }
  assert (Forall no_update t1 ∧ (a = (true, None) → existsb volume_known t1 = true))
    as [Hq1 Hv1].
  { destruct (SnapshotRef _).
    - apply exec_bind_inv in H1 as [(a' & t3 & t4 & H1 & H3 & ->)|(m' & _ & [=])].
      destruct a' as [ok err]. exec_steps H3. rewrite app_nil_r. split.
      + by eapply createImageFromSnapshot_no_update.
      + intros [= -> Hw]. destruct err; [done|].
        by eapply createImageFromSnapshot_cloned.
    - unfold createEmptyImage in H1. exec_steps H1.
      + split; [by repeat constructor|done].
      + split; [by repeat constructor|done]. }
  clear H1. destruct a as [ok [e1|]].
  { exec_steps H2. left. rewrite app_nil_r. by constructor. }
  destruct ok; cbn [negb] in H2.
  2: { exec_steps H2. left. rewrite app_nil_r. by constructor. }
  specialize (Hv1 eq_refl).
  apply exec_bind_inv in H2 as [(a & t3 & t4 & H3 & H4 & ->)|(m & H3 & ->)].
  2: { left. constructor; [done|]. apply Forall_app. split; [done|].
       destruct (bool_decide _); [by eapply setImageLimits_no_update|].
       exec_steps H3. }
  assert (Forall no_update t3) as Hq3.
  { destruct (bool_decide _); [by eapply setImageLimits_no_update|].
    exec_steps H3. done. }
  clear H3. destruct a as [e3|].
  { exec_steps H4. left. rewrite app_nil_r. constructor; [done|].
    by apply Forall_app. }
  apply exec_bind_inv in H4 as [(a & t5 & t6 & H5 & H6 & ->)|(m & H5 & ->)].
  2: { apply fetchAuth_exec in H5 as [_ (? & [=] & _)]. }
  apply fetchAuth_exec in H5 as [Hq5 (res & [= <-] & Hres)].
  destruct a as [[user key] [e5|]].
  { exec_steps H6. left. rewrite app_nil_r. constructor; [done|].
    by rewrite !Forall_app. }
  destruct (Hres eq_refl) as (data & -> & Hk & Hu). cbn [fst snd] in Hk, Hu.
  subst user. right.
  exists (Ev (OptionsSetString librbd.RbdImageOptionDataPool (pool r)) None
            :: t1 ++ t3 ++ [Ev (ConnMonCommand (auth_command r)) (data, None)]),
    data, key.
  exec_norm H6. destruct H6 as (wwn & t7 & -> & H6).
  destruct H6 as (ans & t8 & -> & H6).
  exists wwn, ans.
  assert (t8 = []) as -> by (exec_steps H6; done).
  split_and!.
  - cbn. by rewrite <- !app_assoc.
  - constructor; [done|]. rewrite !Forall_app. split_and!; [done..|].
    by repeat constructor.
  - cbn. rewrite existsb_app, Hv1. done.
  - apply elem_of_cons. right. rewrite !elem_of_app. right. right.
    apply elem_of_cons. by left.
  - done.
Qed.

Lemma quiet_not_available t :
  Forall no_update t → Forall (λ e, marks_available e = false) t.
Proof.
  intros Hq. eapply Forall_impl; [exact Hq|].
  intros [R c a]. unfold no_update. by destruct c.
Qed.

Lemma provision_preceded ioCtx img t o :
  exec (provision r ioCtx img) t o →
  preceded marks_available volume_known false t = true.
Proof.
  intros Hx. apply provision_exec in Hx
    as [Hq|(pre & data & key & wwn & ans & -> & Hq & Hv & _)].
  - by apply preceded_quiet, quiet_not_available.
  - rewrite preceded_app, Hv. rewrite preceded_seen, andb_true_r.
    by apply preceded_quiet, quiet_not_available.
Qed.

(** Before the volume is made, an image that is not Available is not
    handed to the store as Available. *)
Lemma ensureFinalizer_pending img :
  img.(Status).(State) ≠ ImageStateAvailable →
  emits (λ e, marks_available e = false) (ensureFinalizer img)
  ∧ returns (λ '(img', _), img'.(Status) = img.(Status)) (ensureFinalizer img).
Proof.
  intros Hs. apply String.eqb_neq in Hs. split.
  - unfold ensureFinalizer. emits_go fail.
  - intros t a Hx. unfold ensureFinalizer in Hx. exec_steps Hx; done.
Qed.

Lemma reconcileSnapshot_pending img :
  img.(Status).(State) ≠ ImageStateAvailable →
  emits (λ e, marks_available e = false) (reconcileSnapshot img)
  ∧ returns (λ '(img', _), img'.(Status) = img.(Status)) (reconcileSnapshot img).
Proof.
  intros Hs. apply String.eqb_neq in Hs. split.
  - unfold reconcileSnapshot, recordSnapshotRef. emits_go fail.
  - intros t a Hx. unfold reconcileSnapshot, recordSnapshotRef in Hx.
    exec_steps Hx; done.
Qed.

(** The run of [reconcileImage] on an image that is not Available: the
    deletion, or the finalizer and snapshot steps, which do not mark the
    image Available, and then, if these steps succeed, the provisioning
    part between the making and the release of the options. *)
Lemma reconcileImage_live id t o img0 :
  exec (reconcileImage r id) t o →
  fetched t = Some img0 →
  img0.(Status).(State) ≠ ImageStateAvailable →
  ∃ tM u,
    Forall (λ e, marks_available e = false) tM
    ∧ (t = Ev (ConnOpenIOContext r.(pool)) None
           :: Ev (ImagesGet id) (Some img0, None)
           :: tM ++ [Ev (IOContextDestroy r.(pool)) u]
       ∨ ∃ img tP u',
           img.(Meta).(ID) = img0.(Meta).(ID)
           ∧ exec (provision r r.(pool) img) tP o
           ∧ t = Ev (ConnOpenIOContext r.(pool)) None
                 :: Ev (ImagesGet id) (Some img0, None)
                 :: tM ++ Ev NewRbdImageOptions tt
                 :: tP ++ [Ev OptionsDestroy u'; Ev (IOContextDestroy r.(pool)) u]).
Proof.
  unfold reconcileImage. intros Hx Hf Hs.
  exec_steps Hx; cbn in Hf; try discriminate Hf.
  all: injection Hf as <-.
  { exists t0, u. split; [|by left].
    eapply (emits_exec _ _ _ _ Hx). apply String.eqb_neq in Hs.
    unfold deleteImage. emits_go fail. }
  { by apply String.eqb_eq in Heqb0. }
  apply exec_bind_inv in Hx as [(a & tF & t1 & HF & Hx & ->)|(m & HF & ->)].
  2: { exists t0, u. split; [by eapply ensureFinalizer_pending|by left]. }
  destruct a as [img1 oe].
  pose proof (proj1 (ensureFinalizer_pending _ Hs) _ _ HF) as HqF.
  pose proof (proj2 (ensureFinalizer_pending _ Hs) _ _ HF) as HsF.
  destruct (proj2 (ensureFinalizer_about i) _ _ HF) as [(HiF & _) _].
  cbn beta iota in HsF. destruct oe as [e|].
  { exec_steps Hx. exists (tF ++ []), u. split; [by rewrite app_nil_r|by left]. }
  rewrite <- HsF in Hs.
  apply exec_bind_inv in Hx as [(a & tS & t2 & HS & Hx & ->)|(m & HS & ->)].
  2: { exists (tF ++ t1), u. split; [|by left].
       apply Forall_app. split; [done|]. by eapply reconcileSnapshot_pending. }
  destruct a as [img2 oe].
  pose proof (proj1 (reconcileSnapshot_pending _ Hs) _ _ HS) as HqS.
  destruct (proj2 (reconcileSnapshot_about img1) _ _ HS) as [(HiS & _) _].
  destruct oe as [e|].
  { exec_steps Hx. exists (tF ++ tS ++ []), u. split; [|by left].
    rewrite app_nil_r. by apply Forall_app. }
  exec_steps Hx. exists (tF ++ tS), u. split; [by apply Forall_app|].
  right. exists img2, t0, u0. split; [congruence|]. split; [done|].
  destruct r2. cbn. rewrite <- !app_assoc. cbn. by rewrite <- !app_assoc.
Qed.

Lemma preceded_mono need by_ s t :
  preceded need by_ false t = true → preceded need by_ s t = true.
Proof. destruct s; [intros _; apply preceded_seen|done]. Qed.

Lemma reconcileImage_available_preceded id t o :
  exec (reconcileImage r id) t o →
  preceded marks_available volume_known false t = true.
Proof.
  intros Hx. pose proof Hx as Hx'. unfold reconcileImage in Hx.
  exec_steps Hx; try done.
  - (* the deletion path *)
    cbn [preceded marks_available volume_known negb orb andb].
    destruct (String.eqb _ _) eqn:Hs; [apply preceded_seen|].
    apply preceded_quiet. apply Forall_app. split; [|by repeat constructor].
    eapply (emits_exec _ _ _ _ Hx).
    unfold deleteImage. emits_go fail.
  - (* a live image that is not Available *)
    clear Hx. apply bool_decide_eq_false in Heqb. apply String.eqb_neq in Heqb0.
    destruct (reconcileImage_live _ _ _ i Hx' eq_refl Heqb0)
      as (tM & u' & Hq & [Ht|(img & tP & u'' & _ & HP & Ht)]).
    + rewrite Ht. apply preceded_quiet. repeat (constructor; [done|]).
      apply Forall_app. split; [done|by repeat constructor].
    + rewrite Ht. cbn [preceded marks_available volume_known negb orb andb].
      apply String.eqb_neq in Heqb0. rewrite Heqb0.
      rewrite preceded_app. apply andb_true_iff. split; [by apply preceded_quiet|].
      cbn [preceded marks_available negb orb andb].
      rewrite preceded_app. apply andb_true_iff. split.
      * apply preceded_mono. by eapply provision_preceded.
      * apply preceded_quiet. by repeat constructor.
Qed.

(** An image is handed to the store as Available only after its volume
    was made: every update of a run of [reconcileImage] that carries the
    state Available comes after a create or a clone of the run that the
    backend answered without error, or after a fetch that answered with
    an image that was Available already (the update that removes the
    finalizer of a deleted image). *)
Theorem available_after_volume (w : W) (id : string)
    (pre : list Event) (e : Event) (post : list Event) :
  trace (run h (reconcileImage r id) w) = pre ++ e :: post →
  marks_available e = true →
  existsb volume_known pre = true.
Proof.
  intros Ht Hm.
  pose proof (reconcileImage_available_preceded id _ _
                (run_exec h (reconcileImage r id) w)) as Hg.
  exact (preceded_sound _ _ false _ Hg pre e post Ht Hm).
Qed.

(** The access descriptor of an image that becomes Available.  When a
    run of [reconcileImage] that fetched an image not yet Available
    hands an image to the store as Available, its status names the
    monitors of the reconciler, the handle "pool/ID" of the fetched
    image and the client of the reconciler without the prefix "client.";
    the key is the one decoded from the answer of the monitors to the
    "auth get-key" command of this run, the WWN is one the generator
    gave in this run; and the update is the last call of the run but
    the release of the options and of the I/O context. *)
Theorem available_access (w : W) (id : string) (img0 img' : Image)
    (pre : list Event) (e : Event) (post : list Event) :
  let res := run h (reconcileImage r id) w in
  fetched (trace res) = Some img0 →
  img0.(Status).(State) ≠ ImageStateAvailable →
  trace res = pre ++ e :: post →
  updated_image e = Some img' →
  img'.(Status).(State) = ImageStateAvailable →
  ∃ data key wwn,
    img'.(Status) = available_status r img0 key wwn
    ∧ Ev (ConnMonCommand (auth_command r)) (data, None) ∈ pre
    ∧ json_Unmarshal data = (key, None)
    ∧ Ev WwnGenerate wwn ∈ pre
    ∧ post = [Ev OptionsDestroy tt; Ev (IOContextDestroy r.(pool)) tt].
Proof.
  cbn zeta. intros Hf Hs Ht Hu Ha.
  assert (marks_available e = true) as Hm.
  { destruct e as [R c a]. destruct c; try discriminate Hu.
    injection Hu as ->. cbn. by apply String.eqb_eq. }
  pose proof (run_exec h (reconcileImage r id) w) as Hx.
  destruct (reconcileImage_live _ _ _ _ Hx Hf Hs)
    as (tM & u & Hq & [Ht'|(img & tP & u' & Hid & HP & Ht')]).
  { exfalso. apply (none_of marks_available pre post e); [|done].
    rewrite <- Ht, Ht'. repeat (constructor; [done|]).
    apply Forall_app. split; [done|by repeat constructor]. }
  apply provision_exec in HP
    as [HqP|(pre' & data & key & wwn & ans & -> & HqP & _ & Hk & Hj)].
  { exfalso. apply (none_of marks_available pre post e); [|done].
    rewrite <- Ht, Ht'. repeat (constructor; [done|]).
    apply Forall_app. split; [done|]. constructor; [done|].
    apply Forall_app. split; [by apply quiet_not_available|by repeat constructor]. }
  rewrite Ht' in Ht. clear Ht'.
  replace (Ev (ConnOpenIOContext r.(pool)) None
             :: Ev (ImagesGet id) (Some img0, None)
             :: tM ++ Ev NewRbdImageOptions tt
             :: (pre' ++ [Ev WwnGenerate wwn;
                          Ev (ImagesUpdate
                                (set_Status img (available_status r img key wwn))) ans])
                ++ [Ev OptionsDestroy u'; Ev (IOContextDestroy r.(pool)) u])
    with ((Ev (ConnOpenIOContext r.(pool)) None
             :: Ev (ImagesGet id) (Some img0, None)
             :: tM ++ Ev NewRbdImageOptions tt :: pre' ++ [Ev WwnGenerate wwn])
            ++ Ev (ImagesUpdate
                     (set_Status img (available_status r img key wwn))) ans
            :: [Ev OptionsDestroy u'; Ev (IOContextDestroy r.(pool)) u]) in Ht
    by (cbn; rewrite <- !app_assoc; cbn; by rewrite <- !app_assoc).
  apply (only_one marks_available
           (Ev (ConnOpenIOContext r.(pool)) None
              :: Ev (ImagesGet id) (Some img0, None)
              :: tM ++ Ev NewRbdImageOptions tt :: pre' ++ [Ev WwnGenerate wwn])
           [Ev OptionsDestroy u'; Ev (IOContextDestroy r.(pool)) u])
    in Ht as (-> & -> & ->); [| |by repeat constructor|done].
  - cbn in Hu. injection Hu as <-. exists data, key, wwn.
    destruct u, u'. split_and!; try done.
    + unfold available_status. cbn. by rewrite Hid.
    + do 2 (apply elem_of_cons; right). rewrite elem_of_app. right.
      apply elem_of_cons. right. rewrite elem_of_app. by left.
    + do 2 (apply elem_of_cons; right). rewrite elem_of_app. right.
      apply elem_of_cons. right. rewrite elem_of_app. right.
      apply elem_of_cons. by left.
  - repeat (constructor; [done|]).
    apply Forall_app. split; [done|]. constructor; [done|].
    apply Forall_app. split; [by apply quiet_not_available|by repeat constructor].
Qed.
End Available.

(** ** What is acquired is released *)

Section Owes.
Context (f g : Event → bool).

Lemma tally_app (k : Event → bool) (t1 t2 : list Event) :
  (tally k (t1 ++ t2) = tally k t1 + tally k t2)%nat.
Proof. induction t1 as [|e t1 IH]; cbn; [done|]. rewrite IH. lia. Qed.

Lemma owes_Ret {A : Type} (n : nat) (a : A) (m : A → nat) :
  n = m a → owes f g n (Ret a) m.
Proof. intros -> t o [-> ->]. cbn. done. Qed.

Lemma owes_Panic {A : Type} (s : string) (m : A → nat) :
  owes f g 0 (Panic s) m.
Proof. intros t o [-> ->]. done. Qed.

Lemma owes_Do {A R : Type} (n : nat) (c : Call R) (k : R → Prog A) (m : A → nat) :
  (∀ r, f (Ev c r) = false ∧ g (Ev c r) = false) →
  (∀ r, owes f g n (k r) m) →
  owes f g n (Do c k) m.
Proof.
  intros Hc Hk t o (r & t' & -> & Hx). destruct (Hc r) as [Hf Hg].
  cbn. rewrite Hf, Hg. by apply (Hk r).
Qed.

Lemma owes_acquire {A : Type} (n : nat) (c : Call (option error))
    (k : option error → Prog A) (m : A → nat) :
  (∀ r, f (Ev c r) = bool_decide (r = None) ∧ g (Ev c r) = false) →
  (∀ e, owes f g n (k (Some e)) m) →
  owes f g (S n) (k None) m →
  owes f g n (Do c k) m.
Proof.
  intros Hc Hk1 Hk2 t o (r & t' & -> & Hx). destruct (Hc r) as [Hf Hg].
  cbn. rewrite Hf, Hg. destruct r as [e|]; cbn.
  - by apply (Hk1 e).
  - specialize (Hk2 _ _ Hx). lia.
Qed.

Lemma owes_acquire_always {A R : Type} (n : nat) (c : Call R) (k : R → Prog A)
    (m : A → nat) :
  (∀ r, f (Ev c r) = true ∧ g (Ev c r) = false) →
  (∀ r, owes f g (S n) (k r) m) →
  owes f g n (Do c k) m.
Proof.
  intros Hc Hk t o (r & t' & -> & Hx). destruct (Hc r) as [Hf Hg].
  cbn. rewrite Hf, Hg. specialize (Hk _ _ _ Hx). lia.
Qed.

Lemma owes_release {A R : Type} (n : nat) (c : Call R) (k : R → Prog A)
    (m : A → nat) :
  (∀ r, f (Ev c r) = false ∧ g (Ev c r) = true) →
  (∀ r, owes f g n (k r) m) →
  owes f g (S n) (Do c k) m.
Proof.
  intros Hc Hk t o (r & t' & -> & Hx). destruct (Hc r) as [Hf Hg].
  cbn. rewrite Hf, Hg. specialize (Hk _ _ _ Hx). lia.
Qed.

Lemma owes_defer {A : Type} (n : nat) (c : Call unit) (body : Prog A)
    (m : A → nat) :
  f (Ev c tt) = false → g (Ev c tt) = false →
  owes f g n body m →
  owes f g n (defer (call c) body) m.
Proof.
  intros Hf Hg Hb t o Hx. apply exec_defer_inv in Hx as (t1 & [] & H1 & ->).
  rewrite !tally_app. cbn. rewrite Hf, Hg. specialize (Hb _ _ H1). lia.
Qed.

Lemma owes_defer_release {A : Type} (n : nat) (c : Call unit) (body : Prog A)
    (m : A → nat) :
  f (Ev c tt) = false → g (Ev c tt) = true →
  owes f g n body m →
  owes f g (S n) (defer (call c) body) m.
Proof.
  intros Hf Hg Hb t o Hx. apply exec_defer_inv in Hx as (t1 & [] & H1 & ->).
  rewrite !tally_app. cbn. rewrite Hf, Hg. specialize (Hb _ _ H1). lia.
Qed.

Lemma owes_bind {A B : Type} (n : nat) (p : Prog A) (k : A → Prog B)
    (m' : A → nat) (m : B → nat) :
  owes f g n p m' → (∀ a, owes f g (m' a) (k a) m) → owes f g n (bind p k) m.
Proof.
  intros Hp Hk t o Hx.
  apply exec_bind_inv in Hx as [(a & t1 & t2 & H1 & H2 & ->)|(s & H1 & ->)].
  - rewrite !tally_app. specialize (Hp _ _ H1). specialize (Hk _ _ _ H2).
    cbn in Hp. lia.
  - exact (Hp _ _ H1).
Qed.
End Owes.

(** Deciding [owes] along the shape of a program; [loop] settles the
    loops. *)
Ltac owes_go loop :=
  repeat first
    [ loop
    | lazymatch goal with
      | |- owes _ _ _ (Ret _) _ => apply owes_Ret; reflexivity
      | |- owes _ _ _ (Panic _) _ => apply owes_Panic
      | |- owes _ _ _ (Do _ _) _ =>
          first
            [ apply owes_Do; [intros ?; split; reflexivity | intros ?]
            | apply owes_release; [intros ?; split; reflexivity | intros ?]
            | apply owes_acquire_always; [intros ?; split; reflexivity | intros ?]
            | apply owes_acquire; [intros ?; split; reflexivity | intros ? |];
              cbv beta iota ]
      | |- owes _ _ _ (defer (call _) _) _ =>
          first
            [ apply owes_defer; [reflexivity | reflexivity |]
            | apply owes_defer_release; [reflexivity | reflexivity |] ]
      | |- owes _ _ _ (match ?x with _ => _ end) _ => destruct x eqn:?
      | |- owes _ _ _ (if ?b then _ else _) _ => destruct b eqn:?
      | |- owes ?f ?g ?n (mbind ?k (call ?c)) ?m => change (owes f g n (Do c k) m)
      | |- owes ?f ?g ?n (bind (call ?c) ?k) ?m => change (owes f g n (Do c k) m)
      | |- owes _ _ _ (mbind _ _) _ =>
          apply owes_bind with (m' := λ _, 0%nat); [| intros ?]
      | |- owes _ _ _ (bind _ _) _ =>
          apply owes_bind with (m' := λ _, 0%nat); [| intros ?]
      | |- owes _ _ _ (call _) _ => unfold call
      | |- owes _ _ _ (mret _) _ => apply owes_Ret; reflexivity
      end ].

Section Releases.
Context `{Externals} {W : Type} (h : Handler W) (r : ImageReconciler).

Lemma range_closes img limits :
  owes opens_image closes_image 1 (setImageLimits_range img limits)
    (λ err, match err with Some _ => 0 | None => 1 end)%nat.
Proof.
  induction limits as [|[limit value] limits IH]; cbn [setImageLimits_range].
  - by apply owes_Ret.
  - owes_go fail. exact IH.
Qed.

Lemma range_ioctx img limits :
  owes opens_ioctx destroys_ioctx 0 (setImageLimits_range img limits) (λ _, 0%nat).
Proof.
  induction limits as [|[limit value] limits IH]; cbn [setImageLimits_range].
  - by apply owes_Ret.
  - owes_go fail. exact IH.
Qed.

Lemma range_options img limits :
  owes allocates_options destroys_options 0 (setImageLimits_range img limits)
    (λ _, 0%nat).
Proof.
  induction limits as [|[limit value] limits IH]; cbn [setImageLimits_range].
  - by apply owes_Ret.
  - owes_go fail. exact IH.
Qed.

Lemma reconcileImage_images id :
  owes opens_image closes_image 0 (reconcileImage r id) (λ _, 0%nat).
Proof.
  unfold_reconciler.
  owes_go ltac:(idtac;
    lazymatch goal with
    | |- owes _ _ 1 (mbind _ (setImageLimits_range _ _)) _ =>
        eapply owes_bind; [apply range_closes | intros ?]
    end).
Qed.

Lemma reconcileImage_ioctx id :
  owes opens_ioctx destroys_ioctx 0 (reconcileImage r id) (λ _, 0%nat).
Proof.
  unfold_reconciler.
  owes_go ltac:(idtac;
    lazymatch goal with
    | |- owes _ _ _ (setImageLimits_range _ _) _ => apply range_ioctx
    end).
Qed.

Lemma reconcileImage_options id :
  owes allocates_options destroys_options 0 (reconcileImage r id) (λ _, 0%nat).
Proof.
  unfold_reconciler.
  owes_go ltac:(idtac;
    lazymatch goal with
    | |- owes _ _ _ (setImageLimits_range _ _) _ => apply range_options
    end).
Qed.

(** A run of [reconcileImage] releases what it acquires, however it
    ends, with success, with an error or with a panic: as many I/O
    contexts are destroyed as were opened, as many volumes are closed as
    were opened, and the image options are destroyed as often as they
    were made. *)
Theorem reconcileImage_releases (w : W) (id : string) :
  let t := trace (run h (reconcileImage r id) w) in
  tally opens_ioctx t = tally destroys_ioctx t
  ∧ tally opens_image t = tally closes_image t
  ∧ tally allocates_options t = tally destroys_options t.
Proof.
  cbn zeta.
  pose proof (run_exec h (reconcileImage r id) w) as Hx.
  pose proof (reconcileImage_ioctx id _ _ Hx) as H1.
  pose proof (reconcileImage_images id _ _ Hx) as H2.
  pose proof (reconcileImage_options id _ _ Hx) as H3.
  destruct (outcome _); cbn in H1, H2, H3; done.
Qed.
End Releases.

(** ** The snapshot of a source *)

Section NewSnapshot.
Context `{Externals} {W : Type} (h : Handler W).

(** A snapshot is created for the digest the registry gave, and only
    when the store has none under it.  Every [Create] of a run of
    [reconcileSnapshot] is its third call: the image names a source and
    has no snapshot reference, the source was parsed, the registry
    resolved it to a digest, and the lookup of the snapshot with that
    digest as its ID answered "not found".  The snapshot handed to the
    store has the digest as its ID and as its image-digest label, names
    the source as locator and digest joined by an at sign, and has no
    state, no finalizer and no deletion time. *)
Theorem snapshot_keyed_by_digest (w : W) (img : Image)
    (pre : list Event) (e : Event) (post : list Event) (snap : Snapshot) :
  trace (run h (reconcileSnapshot img) w) = pre ++ e :: post →
  created_snapshot e = Some snap →
  let digest := snap.(SnapMeta).(ID) in
  img.(Spec).(Image_) ≠ ""
  ∧ img.(Spec).(SnapshotRef) = None
  ∧ (reference_Parse img.(Spec).(Image_)).2 = None
  ∧ snap = new_snapshot (reference_Parse img.(Spec).(Image_)).1 digest
  ∧ ∃ lookup err,
      errors.Is (Some err) store.ErrNotFound = true
      ∧ pre = [Ev (RegistryResolve img.(Spec).(Image_)) (Some digest, None);
               Ev (SnapshotsGet digest) (lookup, Some err)].
Proof.
  cbn zeta. intros Ht Hc.
  assert (snapshot_create e = true) as Hm.
  { destruct e as [R c a]. by destruct c. }
  pose proof (run_exec h (reconcileSnapshot img) w) as Hx. rewrite Ht in Hx.
  clear Ht. revert Hx. generalize (outcome (run h (reconcileSnapshot img) w)).
  intros o Hx. remember (pre ++ e :: post) as t eqn:Ht.
  unfold reconcileSnapshot, recordSnapshotRef in Hx.
  exec_steps Hx.
  all: try (exfalso; apply (none_of snapshot_create pre post e);
            [rewrite <- Ht; by repeat constructor|done]).
  all: apply (only_one snapshot_create [_; _]) in Ht as (-> & -> & ->);
    [|by repeat constructor..|done].
  all: cbn in Hc; injection Hc as <-; cbn.
  all: apply negb_false_iff, andb_true_iff in Heqb as [Hi Hr].
  all: apply negb_true_iff, String.eqb_neq in Hi.
  all: apply bool_decide_eq_true in Hr.
  all: split_and!; try done.
  all: by eexists _, _.
Qed.
End NewSnapshot.

(** ** The credentials *)

Lemma substring_all (s : string) : String.substring 0 (String.length s) s = s.
Proof. induction s as [|a s IH]; cbn; [done|]. by rewrite IH. Qed.

(** [strings.TrimPrefix] takes a prefix off. *)
Lemma TrimPrefix_app (p s : string) : strings.TrimPrefix (p +:+ s) p = s.
Proof.
  unfold strings.TrimPrefix.
  assert (String.prefix p (p +:+ s) = true) as ->.
  { induction p as [|a p IH]; [by destruct s|].
    change (String a p +:+ s) with (String a (p +:+ s)). simpl.
    destruct (Ascii.ascii_dec a a); [done|congruence]. }
  induction p as [|a p IH].
  - change ("" +:+ s) with s. simpl. rewrite Nat.sub_0_r. apply substring_all.
  - change (String a p +:+ s) with (String a (p +:+ s)). simpl. exact IH.
Qed.

Section Credentials.
Context `{Externals} {W : Type} (h : Handler W) (r : ImageReconciler).

(** [fetchAuth] always returns, after at most one command to the
    monitors.  With an error it returns the empty user and the empty
    key.  Without, the command was "auth get-key" for the client of the
    reconciler, the monitors answered it without error, the key is the
    one decoded from the answer, and the user is the client without the
    prefix "client.": for the client "client." followed by a name, the
    name. *)
Theorem fetchAuth_credentials (w : W) :
  let res := run h (fetchAuth r) w in
  ∃ user key err,
    outcome res = Returned (user, key, err)
    ∧ (length (trace res) ≤ 1)%nat
    ∧ match err with
      | Some _ => user = "" ∧ key = ""
      | None =>
          (∃ data,
             trace res = [Ev (ConnMonCommand (auth_command r)) (data, None)]
             ∧ json_Unmarshal data = (key, None))
          ∧ (json_Marshal
               (<["prefix" := "auth get-key"]>
                  (<["entity" := r.(client)]> (<["format" := "json"]> ∅)))).2 = None
          ∧ user = strings.TrimPrefix r.(client) "client."
          ∧ ∀ name, r.(client) = "client." +:+ name → user = name
      end.
Proof.
  cbn zeta.
  pose proof (run_exec h (fetchAuth r) w) as Hx.
  revert Hx. generalize (trace (run h (fetchAuth r) w)).
  generalize (outcome (run h (fetchAuth r) w)). intros o t Hx.
  unfold fetchAuth, auth_command in *.
  destruct (json_Marshal _) as [cmd1 [e|]]; cbn [fst snd].
  { exec_steps Hx. eexists _, _, _. split; [done|]. cbn. split; [lia|done]. }
  exec_steps Hx.
  all: eexists _, _, _; (split; [done|]); cbn; (split; [lia|]); try done.
  split_and!; try done.
  - by eexists.
  - intros name ->. apply (TrimPrefix_app "client.").
Qed.
End Credentials.

(** ** Cloning *)

Section Clone.
Context `{Externals} {W : Type} (h : Handler W) (r : ImageReconciler).

(** A volume is cloned only from a snapshot the store shows as
    Populated.  Every clone of a run of [createImageFromSnapshot] is its
    third call, after the lookup of the referenced snapshot answered
    with a snapshot in the state Populated and a second I/O context was
    opened on the pool; the parent is the volume of that snapshot at the
    fixed snapshot version, the child the volume of the image, with the
    options handed in. *)
Theorem clone_only_from_populated (w : W) (ioCtx : IOContext) (image : Image)
    (ref : string) (opts : ImageOptions)
    (pre : list Event) (e : Event) (post : list Event) :
  trace (run h (createImageFromSnapshot r ioCtx image ref opts) w)
  = pre ++ e :: post →
  clones_volume e = true →
  ∃ snapshot ans,
    snapshot.(SnapStatus).(SnapState) = SnapshotStatePopulated
    ∧ pre = [Ev (SnapshotsGet ref) (Some snapshot, None);
             Ev (ConnOpenIOContext r.(pool)) None]
    ∧ e = Ev (CloneImage r.(pool) (SnapshotIDToRBDID snapshot.(SnapMeta).(ID))
                ImageSnapshotVersion ioCtx (ImageIDToRBDID image.(Meta).(ID)) opts)
            ans.
Proof.
  intros Ht Hc.
  pose proof (run_exec h (createImageFromSnapshot r ioCtx image ref opts) w) as Hx.
  rewrite Ht in Hx. clear Ht. revert Hx.
  generalize (outcome (run h (createImageFromSnapshot r ioCtx image ref opts) w)).
  intros o Hx. remember (pre ++ e :: post) as t eqn:Ht.
  unfold createImageFromSnapshot in Hx.
  exec_steps Hx.
  all: try (exfalso; apply (none_of clones_volume pre post e);
            [rewrite <- Ht; by repeat constructor|done]).
  all: apply (only_one clones_volume [_; _]) in Ht as (-> & -> & ->);
    [|by repeat constructor..|done].
  all: apply negb_false_iff, String.eqb_eq in Heqb.
  all: by eexists _, _.
Qed.
End Clone.

(** ** Panics *)

Lemma careful_Ret {A : Type} (seen : bool) (a : A) : careful seen (Ret a).
Proof. by intros t m [_ [=]]. Qed.

Lemma careful_Panic {A : Type} (seen : bool) (s : string) :
  seen = true → careful seen (@Panic A s).
Proof. intros -> t m _. done. Qed.

Lemma careful_Do {A R : Type} (seen : bool) (c : Call R) (k : R → Prog A) :
  (∀ r, careful (seen || nil_answer (Ev c r)) (k r)) → careful seen (Do c k).
Proof.
  intros Hk t m (r & t' & -> & Hx). cbn. rewrite orb_assoc. by eapply Hk.
Qed.

Lemma careful_defer {A : Type} (seen : bool) (c : Call unit) (body : Prog A) :
  careful seen body → careful seen (defer (call c) body).
Proof.
  intros Hb t m Hx. apply exec_defer_inv in Hx as (t1 & u & H1 & ->).
  rewrite existsb_app, orb_assoc. rewrite (Hb _ _ H1). done.
Qed.

Lemma careful_bind {A B : Type} (seen : bool) (p : Prog A) (k : A → Prog B) :
  careful seen p → (∀ a, careful seen (k a)) → careful seen (bind p k).
Proof.
  intros Hp Hk t m Hx.
  apply exec_bind_inv in Hx as [(a & t1 & t2 & H1 & H2 & ->)|(s & H1 & _)].
  - rewrite existsb_app. specialize (Hk _ _ _ H2).
    destruct seen; [done|]. cbn in *. rewrite Hk. apply orb_true_r.
  - by eapply Hp.
Qed.

(** Deciding [careful] along the shape of a program; [loop] settles the
    loops. *)
Ltac careful_go loop :=
  repeat first
    [ loop
    | lazymatch goal with
      | |- careful _ (Ret _) => apply careful_Ret
      | |- careful _ (Panic _) => apply careful_Panic
      | |- careful _ (Do _ _) => apply careful_Do; intros ?
      | |- careful _ (defer (call _) _) => apply careful_defer
      | |- careful _ (match ?x with _ => _ end) => destruct x eqn:?
      | |- careful _ (if ?b then _ else _) => destruct b eqn:?
      | |- careful ?s (mbind ?k (call ?c)) => change (careful s (Do c k))
      | |- careful ?s (bind (call ?c) ?k) => change (careful s (Do c k))
      | |- careful _ (mbind _ _) => apply careful_bind; [| intros ?]
      | |- careful _ (bind _ _) => apply careful_bind; [| intros ?]
      | |- careful _ (call _) => unfold call
      | |- careful _ (mret _) => apply careful_Ret
      end ].

Section Panics.
Context `{Externals} {W : Type} (h : Handler W) (r : ImageReconciler).

Lemma range_careful seen img limits :
  careful seen (setImageLimits_range img limits).
Proof.
  revert seen.
  induction limits as [|[limit value] limits IH]; intros seen;
    cbn [setImageLimits_range].
  - apply careful_Ret.
  - careful_go fail. apply IH.
Qed.

Lemma reconcileImage_careful id : careful false (reconcileImage r id).
Proof.
  unfold_reconciler.
  careful_go ltac:(idtac;
    lazymatch goal with
    | |- careful _ (setImageLimits_range _ _) => apply range_careful
    end).
  all: cbn; rewrite ?orb_true_r; try done.
  by apply negb_false_iff in Heqb1.
Qed.

(** [reconcileImage] panics only on a nil pointer a collaborator left
    it with.  A run that panics has been answered, by the fetch of the
    image, by the registry, by the lookup or by the creation of a
    snapshot, with no object and no error, or by the lookup of a
    snapshot with no object next to "not found", which the clone step
    reads.  A run in which no call is answered so returns. *)
Theorem reconcileImage_panics_on_nil_only (w : W) (id : string) (m : string) :
  outcome (run h (reconcileImage r id) w) = Panicked m →
  existsb nil_answer (trace (run h (reconcileImage r id) w)) = true.
Proof.
  intros Ho.
  pose proof (run_exec h (reconcileImage r id) w) as Hx. rewrite Ho in Hx.
  exact (reconcileImage_careful id _ _ Hx).
Qed.
End Panics.

(** ** The scenarios, run *)

(** C1.  The snapshot the image refers to is not in the store: the store
    answers "not found" with the nil pointer, the log call of the
    not-found branch reads [snapshot.ID], and the clone step, the
    reconciliation and the worker panic instead of returning "not
    ready".  [Done] still runs, deferred. *)
Theorem missing_snapshot_panics :
  handle _ (SnapshotsGet digest0) worldMissing
  = ((None, Some store.ErrNotFound), worldMissing)
  ∧ outcome (run handle (createImageFromSnapshot rec0 "ceph" imgC digest0 []) worldMissing)
    = Panicked "nil pointer dereference: snapshot.ID"
  ∧ outcome (run handle (reconcileImage rec0 "c") worldMissing)
    = Panicked "nil pointer dereference: snapshot.ID"
  ∧ outcome (run handle (processNextWorkItem rec0) worldMissing)
    = Panicked "nil pointer dereference: snapshot.ID"
  ∧ last (trace (run handle (processNextWorkItem rec0) worldMissing))
    = Some (Ev (QueueDone "c") tt).
Proof. repeat split; vm_compute; reflexivity. Qed.

(** C2, the claim as stated fails: the loser of the race gets "already
    exists" from [Create] and its reconciliation returns that error; the
    image is left without a snapshot reference. *)
Lemma race_loser_fails :
  omap create_failure (trace (run handle (reconcileImage rec0 "b") worldRace))
  = [store.ErrAlreadyExists]
  ∧ outcome (run handle (reconcileSnapshot imgB) worldRace)
    = Returned (imgB, Some (Wrapf "failed to create snapshot" store.ErrAlreadyExists))
  ∧ outcome (run handle (reconcileImage rec0 "b") worldRace)
    = Returned (Some (Wrapf "failed to reconcile snapshot"
                        (Wrapf "failed to create snapshot" store.ErrAlreadyExists)))
  ∧ (world (run handle (reconcileImage rec0 "b") worldRace)).(w_images) !! "b"
    = Some imgB
  ∧ imgB.(Spec).(SnapshotRef) = None.
Proof. repeat split; vm_compute; reflexivity. Qed.

(** The race, run: the [Create] of the loser is answered "already
    exists", and the reconciliation returns it wrapped. *)
Lemma snapshot_create_conflict_witness :
  outcome (run handle (reconcileSnapshot imgB) worldRace)
  = Returned (imgB, Some (Wrapf "failed to create snapshot" store.ErrAlreadyExists))
  ∧ omap updated_image (trace (run handle (reconcileSnapshot imgB) worldRace)) = [].
Proof.
  apply (proj1 (snapshot_create_conflict handle worldRace imgB) store.ErrAlreadyExists).
  vm_compute. apply list_elem_of_here.
Defined.

(** The loser converges on its retry: the worker requeues it with a
    failure counted, and the second attempt finds the snapshot of the
    winner, records it, and leaves one snapshot in the store. *)
Example race_loser_converges :
  let w1 := world (run handle (processNextWorkItem rec0) worldRace) in
  let res2 := run handle (processNextWorkItem rec0) w1 in
  w1.(w_failures) !! "b" = Some 1%nat
  ∧ w1.(w_queue) = ["b"]
  ∧ outcome res2 = Returned true
  ∧ (world res2).(w_failures) !! "b" = None
  ∧ (λ i, i.(Spec).(SnapshotRef)) <$> (world res2).(w_images) !! "b"
    = Some (Some digest0)
  ∧ size (world res2).(w_snapshots) = 1%nat.
Proof. repeat split; vm_compute; reflexivity. Qed.

(** Not ready is not failure: the snapshot is there and Pending, the
    reconciliation records it, returns success without making the image
    Available, and the worker forgets the key instead of counting a
    failure. *)
Example pending_snapshot_is_not_failure :
  let res := run handle (processNextWorkItem rec0) worldWon in
  outcome res = Returned true
  ∧ omap rate_limited (trace res) = []
  ∧ (world res).(w_failures) = ∅
  ∧ (world res).(w_volumes) = ∅
  ∧ (world res).(w_images) !! "b" = Some (set_SnapshotRef imgB (Some digest0)).
Proof. repeat split; vm_compute; reflexivity. Qed.

(** Scenario A, run: the sixth call is the creation of the volume, and
    the update that wrote the finalizer is among the five before it. *)
Lemma finalizer_before_mutation_witness :
  existsb secures_finalizer
    (take 5 (trace (run handle (reconcileImage rec0 "a") worldA))) = true.
Proof.
  apply (finalizer_before_mutation handle rec0 worldA "a" _
           (Ev (CreateImage "ceph" "img_a" (10 * GiB)
                  [(librbd.RbdImageOptionDataPool, "ceph")]) None)
           (drop 6 (trace (run handle (reconcileImage rec0 "a") worldA)))).
  - vm_compute. reflexivity.
  - reflexivity.
Defined.

(** C4, the claim as stated fails: the image is Available and not
    deleted, the connection to the backend is down, and [reconcileImage]
    returns an error, before it has fetched the image. *)
Lemma available_image_conn_down :
  worldVDown.(w_images) !! "v" = Some imgV
  ∧ imgV.(Status).(State) = ImageStateAvailable
  ∧ imgV.(Meta).(DeletedAt) = None
  ∧ run handle (reconcileImage rec0 "v") worldVDown
    = (Returned (Some (Wrapf "unable to get io context"
                         (Errorf "rados: connection down"))),
       worldVDown,
       [Ev (ConnOpenIOContext "ceph") (Some (Errorf "rados: connection down"))]).
Proof. repeat split; vm_compute; reflexivity. Qed.

(** With the connection up, the reconciliation of the Available image
    makes no volume call and no store write. *)
Lemma reconcileImage_available_noop_witness :
  forallb (λ e, negb (volume_call e) && negb (store_write e))
    (trace (run handle (reconcileImage rec0 "v") worldV)) = true.
Proof.
  apply (reconcileImage_available_noop handle rec0 worldV worldV worldV "v" imgV);
    reflexivity.
Defined.

(** Scenario D, run: the backend answers "volume not found", the
    finalizer is removed, and the deletion path succeeds. *)
Lemma deleteImage_idempotent_witness :
  ∃ image', outcome (run handle (deleteImage "ceph" imgD) worldD)
            = Returned (image', None).
Proof.
  apply (proj2 (deleteImage_idempotent handle worldD "ceph" imgD)).
  vm_compute. reflexivity.
Defined.

(** The deletion path twice: the second invocation, on the image as the
    first left it and in the world it left, succeeds as well and makes no
    call at all. *)
Example deleteImage_twice :
  let res1 := run handle (deleteImage "ceph" imgD) worldD in
  let img1 := set_Finalizers imgD [] in
  outcome res1 = Returned (img1, None)
  ∧ (world res1).(w_images) !! "d" = None
  ∧ run handle (deleteImage "ceph" img1) (world res1)
    = (Returned (img1, None), world res1, [])
  ∧ outcome (run handle (deleteImage "ceph" imgD) (world res1))
    = Returned (img1, None).
Proof. repeat split; vm_compute; reflexivity. Qed.

(** The snapshot is there already: the reconciliation finds it, creates
    none and records its ID. *)
Lemma snapshotRef_set_once_witness :
  forallb (λ e, negb (snapshot_create e))
    (trace (run handle (reconcileSnapshot imgB) worldWon)) = true
  ∧ ∃ err, outcome (run handle (reconcileSnapshot imgB) worldWon)
           = Returned (set_SnapshotRef imgB (Some digest0), err).
Proof.
  apply (proj2 (proj2 (snapshotRef_set_once handle rec0 worldWon "b" imgB))
           (mkSnapshot digest0 SnapshotStatePending)).
  vm_compute. apply list_elem_of_here.
Defined.

(** C7, the claim as stated fails: the snapshot has 10 GiB, the spec asks
    for 1 GiB, and the clone ends at 1 GiB, below the size it inherited. *)
Lemma clone_shrinks_below_snapshot :
  let res := run handle (createImageFromSnapshot rec0 "ceph" imgC digest0 []) worldClone in
  outcome res = Returned (true, None)
  ∧ worldClone.(w_volumes) !! SnapshotIDToRBDID digest0 = Some (10 * GiB)
  ∧ (world res).(w_volumes) !! ImageIDToRBDID "c" = Some GiB
  ∧ OffBytes imgC.(Spec).(Size) = GiB
  ∧ GiB < 10 * GiB.
Proof. repeat split; vm_compute; reflexivity. Qed.

(** The clone of scenario C ends at the rounded spec size. *)
Lemma clone_resized_to_spec_witness :
  (world (run handle (createImageFromSnapshot rec0 "ceph" imgC digest0 []) worldClone)).(w_volumes)
    !! ImageIDToRBDID "c"
  = Some (OffBytes imgC.(Spec).(Size)).
Proof.
  apply (proj2 (clone_resized_to_spec rec0 handle worldClone worldClone
                  "ceph" imgC digest0 [])).
  vm_compute. reflexivity.
Defined.

(** C8, the claim as stated fails: the snapshot becomes Populated, an
    image of the store depends on it, listing the images fails, and the
    handler adds nothing to the queue. *)
Lemma populated_event_list_fails :
  let res := run handle (snapshotEventHandler populated0) worldListFails in
  populated0.(event.Type') = event.TypeUpdated
  ∧ populated0.(event.Object).(SnapStatus).(SnapState) = SnapshotStatePopulated
  ∧ worldListFails.(w_images) !! "c" = Some imgC
  ∧ imgC.(Spec).(SnapshotRef) = Some populated0.(event.Object).(SnapMeta).(ID)
  ∧ omap queue_added (trace res) = []
  ∧ (world res).(w_queue) = [].
Proof. repeat split; vm_compute; reflexivity. Qed.

(** With a store that lists, the dependent image is added. *)
Example populated_event_wakes_image :
  let res := run handle (snapshotEventHandler populated0) worldClone in
  omap queue_added (trace res) = ["c"] ∧ (world res).(w_queue) = ["c"].
Proof. repeat split; vm_compute; reflexivity. Qed.

(** Scenario A, run by the worker: the last call is [Done] on the item. *)
Lemma processNextWorkItem_done_witness :
  last (trace (run handle (processNextWorkItem rec0) worldA))
  = Some (Ev (QueueDone "a") tt).
Proof.
  apply (processNextWorkItem_done handle rec0 worldA "a"). reflexivity.
Defined.

(** Scenario A end to end: one reconciliation makes the image Available
    with a backend volume of 10 GiB and no snapshot; a second one makes
    no volume call and no store write. *)
Example scenario_A :
  let res1 := run handle (processNextWorkItem rec0) worldA in
  let res2 := run handle (reconcileImage rec0 "a") (world res1) in
  outcome res1 = Returned true
  ∧ (λ i, i.(Status).(State)) <$> (world res1).(w_images) !! "a"
    = Some ImageStateAvailable
  ∧ (world res1).(w_volumes) !! "img_a" = Some (10 * GiB)
  ∧ (world res1).(w_snapshots) = ∅
  ∧ (world res1).(w_processing) = []
  ∧ outcome res2 = Returned None
  ∧ forallb (λ e, negb (volume_call e) && negb (store_write e)) (trace res2) = true.
Proof. repeat split; vm_compute; reflexivity. Qed.

(** ** The further properties, run *)

(** No image "x" in the store: the fetch answers "not found" with no
    image, and the reconciliation is a success of three calls. *)
Lemma reconcileImage_fetch_error_witness :
  run handle (reconcileImage rec0 "x") empty_world
  = (Returned None, empty_world,
     [Ev (ConnOpenIOContext "ceph") None;
      Ev (ImagesGet "x") (None, Some store.ErrNotFound);
      Ev (IOContextDestroy "ceph") tt]).
Proof.
  apply (reconcileImage_fetch_error handle rec0 empty_world empty_world
           empty_world "x" None store.ErrNotFound); reflexivity.
Defined.

(** Scenario D, run: the removal is the third call, after the fetch of
    the image that is marked deleted and carries the finalizer. *)
Lemma removal_only_for_deleted_witness :
  existsb fetched_for_deletion
    [Ev (ConnOpenIOContext "ceph") None; Ev (ImagesGet "d") (Some imgD, None)]
  = true.
Proof.
  apply (removal_only_for_deleted handle rec0 worldD "d" _
           (Ev (RemoveImage "ceph" "img_d") (Some librbd.ErrNotFound))
           (drop 3 (trace (run handle (reconcileImage rec0 "d") worldD)))).
  - vm_compute. reflexivity.
  - reflexivity.
Defined.

(** Scenario D, run: the five calls are those of the deletion path, and
    the run returns. *)
Lemma deleted_image_not_provisioned_witness :
  Forall (λ e, deletion_call e = true)
    (trace (run handle (reconcileImage rec0 "d") worldD))
  ∧ ∃ err, outcome (run handle (reconcileImage rec0 "d") worldD) = Returned err
           ∧ from_option (λ e, ∃ e', e = Wrapf "failed to delete image" e') True err.
Proof.
  apply (deleted_image_not_provisioned handle rec0 worldD "d").
  vm_compute. reflexivity.
Defined.

(** Scenario A, run by a worker with three rounds: after the one item
    the queue signals shutdown, and the worker makes no further call. *)
Lemma worker_stops_at_shutdown_witness :
  drop 15 (trace (run handle (worker rec0 3) worldA)) = [].
Proof.
  apply (worker_stops_at_shutdown handle rec0 worldA 3
           (take 14 (trace (run handle (worker rec0 3) worldA)))
           (Ev QueueGet ("", true))).
  - vm_compute. reflexivity.
  - reflexivity.
Defined.

(** Scenario A, run: the two updates are of the image "a", and the
    volume made is "img_a". *)
Lemma reconcileImage_one_image_witness :
  Forall (λ e,
            from_option (same_identity imgA) True (updated_image e)
            ∧ from_option (λ name, name = ImageIDToRBDID "a") True (volume_target e))
    (trace (run handle (reconcileImage rec0 "a") worldA)).
Proof.
  apply (reconcileImage_one_image handle rec0 worldA "a" imgA).
  vm_compute. reflexivity.
Defined.

(** Scenario L, run: both limits are set. *)
Lemma setImageLimits_sets_every_limit_witness :
  Ev (ImageSetMetadata {| rbd_ioctx := "ceph"; rbd_name := "img_l" |}
        "conf_rbd_qos_iops_limit" "1000") None
    ∈ trace (run handle (setImageLimits "ceph" imgL) worldL)
  ∧ Ev (ImageSetMetadata {| rbd_ioctx := "ceph"; rbd_name := "img_l" |}
          "conf_rbd_qos_bps_limit" "1048576") None
    ∈ trace (run handle (setImageLimits "ceph" imgL) worldL).
Proof.
  assert (outcome (run handle (setImageLimits "ceph" imgL) worldL) = Returned None)
    as Ho by (vm_compute; reflexivity).
  split.
  - apply (proj2 (setImageLimits_sets_every_limit handle worldL "ceph" imgL Ho)
             "rbd_qos_iops_limit" 1000).
    vm_compute. reflexivity.
  - apply (proj2 (setImageLimits_sets_every_limit handle worldL "ceph" imgL Ho)
             "rbd_qos_bps_limit" 1048576).
    vm_compute. reflexivity.
Defined.

(** Scenario L with a backend that refuses metadata: the first limit
    fails, the volume is closed, and the second limit is not tried. *)
Lemma setImageLimits_stops_at_failure_witness :
  (∃ closeErr,
     drop 2 (trace (run handle_refusing (setImageLimits "ceph" imgL) worldL))
     = [Ev (ImageClose {| rbd_ioctx := "ceph"; rbd_name := ImageIDToRBDID "l" |})
          closeErr])
  ∧ (∃ err, outcome (run handle_refusing (setImageLimits "ceph" imgL) worldL)
            = Returned (Some err))
  ∧ Forall (λ e', metadata_failed e' = false)
      (take 1 (trace (run handle_refusing (setImageLimits "ceph" imgL) worldL))).
Proof.
  apply (setImageLimits_stops_at_failure handle_refusing worldL "ceph" imgL
           (take 1 (trace (run handle_refusing (setImageLimits "ceph" imgL) worldL)))
           (Ev (ImageSetMetadata {| rbd_ioctx := "ceph"; rbd_name := "img_l" |}
                  "conf_rbd_qos_iops_limit" "1000")
              (Some (Errorf "rbd: read-only image")))
           (drop 2 (trace (run handle_refusing (setImageLimits "ceph" imgL) worldL)))).
  - vm_compute. reflexivity.
  - reflexivity.
Defined.

(** Scenario A, run: the ninth call hands the image to the store as
    Available, and the creation of the volume is among the eight before
    it. *)
Lemma available_after_volume_witness :
  existsb volume_known
    (take 8 (trace (run handle (reconcileImage rec0 "a") worldA))) = true.
Proof.
  apply (available_after_volume handle rec0 worldA "a" _
           (Ev (ImagesUpdate
                  (set_Status (set_Finalizers imgA [ImageFinalizer])
                     (available_status rec0 imgA "secret" "0")))
               (Some (set_Status (set_Finalizers imgA [ImageFinalizer])
                        (available_status rec0 imgA "secret" "0")), None))
           (drop 9 (trace (run handle (reconcileImage rec0 "a") worldA)))).
  - vm_compute. reflexivity.
  - reflexivity.
Defined.

(** Scenario A, run: the status of the image that becomes Available. *)
Lemma available_access_witness :
  ∃ data key wwn,
    available_status rec0 imgA "secret" "0" = available_status rec0 imgA key wwn
    ∧ Ev (ConnMonCommand (auth_command rec0)) (data, None)
      ∈ take 8 (trace (run handle (reconcileImage rec0 "a") worldA))
    ∧ json_Unmarshal data = (key, None)
    ∧ Ev WwnGenerate wwn
      ∈ take 8 (trace (run handle (reconcileImage rec0 "a") worldA))
    ∧ drop 9 (trace (run handle (reconcileImage rec0 "a") worldA))
      = [Ev OptionsDestroy tt; Ev (IOContextDestroy "ceph") tt].
Proof.
  apply (available_access handle rec0 worldA "a" imgA
           (set_Status (set_Finalizers imgA [ImageFinalizer])
              (available_status rec0 imgA "secret" "0"))
           (take 8 (trace (run handle (reconcileImage rec0 "a") worldA)))
           (Ev (ImagesUpdate
                  (set_Status (set_Finalizers imgA [ImageFinalizer])
                     (available_status rec0 imgA "secret" "0")))
               (Some (set_Status (set_Finalizers imgA [ImageFinalizer])
                        (available_status rec0 imgA "secret" "0")), None))
           (drop 9 (trace (run handle (reconcileImage rec0 "a") worldA)))).
  - vm_compute. reflexivity.
  - discriminate.
  - vm_compute. reflexivity.
  - reflexivity.
  - reflexivity.
Defined.

(** Scenario B, run: the snapshot is created under the digest. *)
Lemma snapshot_keyed_by_digest_witness :
  imgB.(Spec).(Image_) ≠ ""
  ∧ imgB.(Spec).(SnapshotRef) = None
  ∧ (reference_Parse imgB.(Spec).(Image_)).2 = None
  ∧ new_snapshot "repo/base:tag" digest0
    = new_snapshot (reference_Parse imgB.(Spec).(Image_)).1 digest0
  ∧ ∃ lookup err,
      errors.Is (Some err) store.ErrNotFound = true
      ∧ take 2 (trace (run handle (reconcileSnapshot imgB) worldB))
        = [Ev (RegistryResolve imgB.(Spec).(Image_)) (Some digest0, None);
           Ev (SnapshotsGet digest0) (lookup, Some err)].
Proof.
  apply (snapshot_keyed_by_digest handle worldB imgB
           (take 2 (trace (run handle (reconcileSnapshot imgB) worldB)))
           (Ev (SnapshotsCreate (new_snapshot "repo/base:tag" digest0))
              (Some (new_snapshot "repo/base:tag" digest0), None))
           (drop 3 (trace (run handle (reconcileSnapshot imgB) worldB)))
           (new_snapshot "repo/base:tag" digest0)).
  - vm_compute. reflexivity.
  - reflexivity.
Defined.

(** Scenario C with the snapshot Populated: the clone is the third call
    of [createImageFromSnapshot], and the lookup before it answered with
    a Populated snapshot. *)
Lemma clone_only_from_populated_witness :
  ∃ snapshot ans,
    snapshot.(SnapStatus).(SnapState) = SnapshotStatePopulated
    ∧ take 2 (trace (run handle (createImageFromSnapshot rec0 "ceph" imgC digest0 [])
                       worldClone))
      = [Ev (SnapshotsGet digest0) (Some snapshot, None);
         Ev (ConnOpenIOContext "ceph") None]
    ∧ Ev (CloneImage "ceph" "snap_sha256:abc" "v1" "ceph" "img_c" []) None
      = Ev (CloneImage "ceph" (SnapshotIDToRBDID snapshot.(SnapMeta).(ID))
              ImageSnapshotVersion "ceph" (ImageIDToRBDID "c") []) ans.
Proof.
  apply (clone_only_from_populated handle rec0 worldClone "ceph" imgC digest0 []
           (take 2 (trace (run handle (createImageFromSnapshot rec0 "ceph" imgC digest0 [])
                             worldClone)))
           (Ev (CloneImage "ceph" "snap_sha256:abc" "v1" "ceph" "img_c" []) None)
           (drop 3 (trace (run handle (createImageFromSnapshot rec0 "ceph" imgC digest0 [])
                             worldClone)))).
  - vm_compute. reflexivity.
  - reflexivity.
Defined.

(** The snapshot of scenario C is missing from the store: the run
    panics, and the lookup was answered with no snapshot next to "not
    found". *)
Lemma reconcileImage_panics_on_nil_only_witness :
  existsb nil_answer (trace (run handle (reconcileImage rec0 "c") worldMissing))
  = true.
Proof.
  apply (reconcileImage_panics_on_nil_only handle rec0 worldMissing "c"
           "nil pointer dereference: snapshot.ID").
  vm_compute. reflexivity.
Defined.
